(** * Snake: the game engine and its leaderboard

    A shallow embedding of the [SnakeGame] component (the React component
    that follows the Vite configuration in [src/vite.config.ts]) and the
    properties of its tick, input, lifecycle and leaderboard operations.

    Modelling conventions.
    - JavaScript numbers that the component manipulates are integers far
      inside the exactly representable range; they are modelled as [Z].
    - JavaScript strings are sequences of UTF-16 code units, modelled as
      [list N].
    - The React state cells ([useState]) are the fields of one record; an
      event handler is a function from the state before the event to the state
      after the re-render that the handler's setters cause.  Handlers run one
      at a time (single-threaded event loop), and each handler closure is
      rebuilt from the state of the latest render, so the values a closure
      captured are the fields of the record it is applied to.  The one closure
      that outlives a render is the callback given to [setTimeout]; it is
      modelled as data (see [Timeout]).
    - [Math.random] is an input: a tick receives the successive values of
      [Math.floor(Math.random() * GRID_SIZE)] it draws, as a list. *)

From Stdlib Require Import String Ascii.
From Stdlib Require Import NArith ZArith List Bool Lia Permutation Sorted.
Import ListNotations.
Open Scope Z_scope.

(** ** Strings of the host language *)

Definition jsstring := list N.

(** A literal of printable ASCII characters as a sequence of code units. *)
Definition str (s : string) : jsstring :=
  map N_of_ascii (list_ascii_of_string s).

(** [a === b] on strings. *)
Fixpoint code_eqb (a b : jsstring) : bool :=
  match a, b with
  | [], [] => true
  | c :: a', d :: b' => (c =? d)%N && code_eqb a' b'
  | _, _ => false
  end.

(** ** Constants of the component *)

Record Position := mkPosition { x : Z; y : Z }.

Definition Direction := Position.

Definition GRID_SIZE : Z := 20.
Definition INITIAL_SNAKE : list Position := [mkPosition 10 10].
Definition INITIAL_FOOD : Position := mkPosition 15 15.
Definition INITIAL_DIRECTION : Direction := mkPosition 0 (-1).
Definition MAX_HIGH_SCORES : nat := 5.

Inductive GameState := playing | paused | gameOver | waiting.

Module HighScore.
Record t := mk { name : jsstring; score : Z; date : jsstring }.
End HighScore.

(** The callback [() => checkForNewHighScore(score)] handed to [setTimeout]:
    it closes over the [score] of the render in which the collision happened
    and over that render's [checkForNewHighScore], which itself closes over
    that render's [highScores]. *)
Record Timeout := mkTimeout {
  finalScore : Z;
  seenHighScores : list HighScore.t
}.

(** The state cells of [SnakeGame], the [localStorage] slot of the key
    ['snake-high-scores'] and the queue of pending timeouts (all are set with
    the same delay, so they fire in the order they were set). *)
Record State := mkState {
  snake : list Position;
  food : Position;
  direction : Direction;
  gameState : GameState;
  score : Z;
  highScores : list HighScore.t;
  showNameDialog : bool;
  playerName : jsstring;
  newHighScore : Z;
  localStorage : option jsstring;
  timeouts : list Timeout
}.

Definition setSnake (v : list Position) (s : State) : State :=
  mkState v (food s) (direction s) (gameState s) (score s) (highScores s)
    (showNameDialog s) (playerName s) (newHighScore s) (localStorage s)
    (timeouts s).

Definition setFood (v : Position) (s : State) : State :=
  mkState (snake s) v (direction s) (gameState s) (score s) (highScores s)
    (showNameDialog s) (playerName s) (newHighScore s) (localStorage s)
    (timeouts s).

Definition setDirection (v : Direction) (s : State) : State :=
  mkState (snake s) (food s) v (gameState s) (score s) (highScores s)
    (showNameDialog s) (playerName s) (newHighScore s) (localStorage s)
    (timeouts s).

Definition setGameState (v : GameState) (s : State) : State :=
  mkState (snake s) (food s) (direction s) v (score s) (highScores s)
    (showNameDialog s) (playerName s) (newHighScore s) (localStorage s)
    (timeouts s).

Definition setScore (v : Z) (s : State) : State :=
  mkState (snake s) (food s) (direction s) (gameState s) v (highScores s)
    (showNameDialog s) (playerName s) (newHighScore s) (localStorage s)
    (timeouts s).

Definition setHighScores (v : list HighScore.t) (s : State) : State :=
  mkState (snake s) (food s) (direction s) (gameState s) (score s) v
    (showNameDialog s) (playerName s) (newHighScore s) (localStorage s)
    (timeouts s).

Definition setShowNameDialog (v : bool) (s : State) : State :=
  mkState (snake s) (food s) (direction s) (gameState s) (score s)
    (highScores s) v (playerName s) (newHighScore s) (localStorage s)
    (timeouts s).

Definition setPlayerName (v : jsstring) (s : State) : State :=
  mkState (snake s) (food s) (direction s) (gameState s) (score s)
    (highScores s) (showNameDialog s) v (newHighScore s) (localStorage s)
    (timeouts s).

Definition setNewHighScore (v : Z) (s : State) : State :=
  mkState (snake s) (food s) (direction s) (gameState s) (score s)
    (highScores s) (showNameDialog s) (playerName s) v (localStorage s)
    (timeouts s).

Definition setItem (v : jsstring) (s : State) : State :=
  mkState (snake s) (food s) (direction s) (gameState s) (score s)
    (highScores s) (showNameDialog s) (playerName s) (newHighScore s) (Some v)
    (timeouts s).

Definition setTimeouts (v : list Timeout) (s : State) : State :=
  mkState (snake s) (food s) (direction s) (gameState s) (score s)
    (highScores s) (showNameDialog s) (playerName s) (newHighScore s)
    (localStorage s) v.

Definition GameState_eqb (a b : GameState) : bool :=
  match a, b with
  | playing, playing | paused, paused
  | gameOver, gameOver | waiting, waiting => true
  | _, _ => false
  end.

(** [segment.x === p.x && segment.y === p.y] *)
Definition same_cell (p segment : Position) : bool :=
  (x segment =? x p) && (y segment =? y p).

(** ** [String.prototype.trim] *)

(** White space and line terminators of ECMAScript, as code units. *)
Definition is_white_space (c : N) : bool :=
  ((9 <=? c) && (c <=? 13) || (c =? 32) || (c =? 160) || (c =? 5760)
   || (8192 <=? c) && (c <=? 8202) || (c =? 8232) || (c =? 8233)
   || (c =? 8239) || (c =? 8287) || (c =? 12288) || (c =? 65279))%N.

Fixpoint trim_start (s : jsstring) : jsstring :=
  match s with
  | c :: r => if is_white_space c then trim_start r else s
  | [] => []
  end.

Definition trim (s : jsstring) : jsstring :=
  rev (trim_start (rev (trim_start s))).

(** ** [JSON.parse] and [JSON.stringify] *)

Module JSON.

Local Open Scope N_scope.

#[local] Set Warnings "-register-all".

(** A parsed value.  A number keeps the exact decimal value of its
    lexeme, [m * 10 ^ e]. *)
Inductive value :=
| JNull
| JBool (b : bool)
| JNumber (m e : Z)
| JString (s : jsstring)
| JArray (l : list value)
| JObject (l : list (jsstring * value)).

Definition is_ws (c : N) : bool :=
  (c =? 32) || (c =? 9) || (c =? 10) || (c =? 13).

Fixpoint skip_ws (cs : list N) : list N :=
  match cs with
  | c :: r => if is_ws c then skip_ws r else cs
  | [] => []
  end.

Definition is_digit (c : N) : bool := (48 <=? c) && (c <=? 57).

Fixpoint take_digits (cs : list N) : list N * list N :=
  match cs with
  | c :: r =>
      if is_digit c
      then let (ds, r') := take_digits r in (c :: ds, r')
      else ([], cs)
  | [] => ([], [])
  end.

Definition digits_value (ds : list N) : N :=
  fold_left (fun a c => 10 * a + (c - 48)) ds 0.

Definition hex_digit (c : N) : option N :=
  if is_digit c then Some (c - 48)
  else if (97 <=? c) && (c <=? 102) then Some (c - 87)
  else if (65 <=? c) && (c <=? 70) then Some (c - 55)
  else None.

Definition hex4 (a b c d : N) : option N :=
  match hex_digit a, hex_digit b, hex_digit c, hex_digit d with
  | Some h1, Some h2, Some h3, Some h4 =>
      Some (((h1 * 16 + h2) * 16 + h3) * 16 + h4)
  | _, _, _, _ => None
  end.

(** The character a one-letter escape stands for. *)
Definition unescape (e : N) : option N :=
  if e =? 34 then Some 34          (* quote *)
  else if e =? 92 then Some 92     (* backslash *)
  else if e =? 47 then Some 47     (* slash *)
  else if e =? 98 then Some 8      (* b: backspace *)
  else if e =? 102 then Some 12    (* f: form feed *)
  else if e =? 110 then Some 10    (* n: line feed *)
  else if e =? 114 then Some 13    (* r: carriage return *)
  else if e =? 116 then Some 9     (* t: tab *)
  else None.

Definition cons_result {A B} (a : A) (r : option (list A * B))
  : option (list A * B) :=
  match r with
  | Some (l, b) => Some (a :: l, b)
  | None => None
  end.

(** The characters of a string literal after its opening quote, up to
    and including the closing quote. *)
Fixpoint parse_chars (cs : list N) : option (jsstring * list N) :=
  match cs with
  | [] => None
  | c :: r =>
      if c =? 34 then Some ([], r)
      else if c =? 92 then
        match r with
        | [] => None
        | e :: r1 =>
            if e =? 117 then
              match r1 with
              | h1 :: h2 :: h3 :: h4 :: r2 =>
                  match hex4 h1 h2 h3 h4 with
                  | Some u => cons_result u (parse_chars r2)
                  | None => None
                  end
              | _ => None
              end
            else
              match unescape e with
              | Some u => cons_result u (parse_chars r1)
              | None => None
              end
        end
      else if c <? 32 then None
      else cons_result c (parse_chars r)
  end.

(** The fraction (a dot and at least one digit), if any: its digits and
    what follows. *)
Definition parse_frac (cs : list N) : option (list N * list N) :=
  match cs with
  | c :: r =>
      if c =? 46 then
        match take_digits r with
        | ([], _) => None
        | (fs, r') => Some (fs, r')
        end
      else Some ([], cs)
  | [] => Some ([], [])
  end.

(** The exponent (e or E, an optional sign, at least one digit), if any:
    its value and what follows. *)
Definition parse_exp (cs : list N) : option (Z * list N) :=
  match cs with
  | c :: r =>
      if (c =? 101) || (c =? 69) then
        let (neg, r1) :=
          match r with
          | sg :: r' =>
              if sg =? 45 then (true, r')
              else if sg =? 43 then (false, r')
              else (false, r)
          | [] => (false, r)
          end in
        match take_digits r1 with
        | ([], _) => None
        | (es, r2) =>
            let v := Z.of_N (digits_value es) in
            Some (if neg then (- v)%Z else v, r2)
        end
      else Some (0%Z, cs)
  | [] => Some (0%Z, [])
  end.

(** An optional minus sign, then [0] or a digit from 1 to 9 followed by
    digits, then an optional fraction and an optional exponent. *)
Definition parse_number (cs : list N) : option (value * list N) :=
  let (neg, r) :=
    match cs with
    | c :: r' => if c =? 45 then (true, r') else (false, cs)
    | [] => (false, cs)
    end in
  match r with
  | [] => None
  | c :: r1 =>
      let int_part :=
        if c =? 48 then Some ([c], r1)
        else if is_digit c
             then let (ds, r2) := take_digits r1 in Some (c :: ds, r2)
             else None in
      match int_part with
      | None => None
      | Some (ds, r2) =>
          match parse_frac r2 with
          | None => None
          | Some (fs, r3) =>
              match parse_exp r3 with
              | None => None
              | Some (ex, r4) =>
                  let m := Z.of_N (digits_value (ds ++ fs)) in
                  Some (JNumber (if neg then (- m)%Z else m)
                                (ex - Z.of_nat (length fs))%Z, r4)
              end
          end
      end
  end.

(** [cs] starts with the characters [lit]: what follows them. *)
Fixpoint expect (lit cs : list N) : option (list N) :=
  match lit, cs with
  | [], _ => Some cs
  | a :: lit', c :: r => if a =? c then expect lit' r else None
  | _ :: _, [] => None
  end.

(** The recursive-descent parser.  [fuel] bounds the nesting of the calls;
    [parse] below supplies enough of it for the whole text. *)
Fixpoint parse_value (fuel : nat) (cs : list N)
  : option (value * list N) :=
  match fuel with
  | O => None
  | S f =>
      match skip_ws cs with
      | [] => None
      | c :: r =>
          if c =? 91 then                               (* [ *)
            match skip_ws r with
            | d :: r' =>
                if d =? 93 then Some (JArray [], r')
                else match parse_elements f (d :: r') with
                     | Some (vs, r2) => Some (JArray vs, r2)
                     | None => None
                     end
            | [] => None
            end
          else if c =? 123 then                         (* { *)
            match skip_ws r with
            | d :: r' =>
                if d =? 125 then Some (JObject [], r')
                else match parse_members f (d :: r') with
                     | Some (ms, r2) => Some (JObject ms, r2)
                     | None => None
                     end
            | [] => None
            end
          else if c =? 34 then                          (* quote *)
            match parse_chars r with
            | Some (s, r') => Some (JString s, r')
            | None => None
            end
          else if c =? 110 then                         (* null *)
            match expect (str "ull") r with
            | Some r' => Some (JNull, r')
            | None => None
            end
          else if c =? 116 then                         (* true *)
            match expect (str "rue") r with
            | Some r' => Some (JBool true, r')
            | None => None
            end
          else if c =? 102 then                         (* false *)
            match expect (str "alse") r with
            | Some r' => Some (JBool false, r')
            | None => None
            end
          else parse_number (c :: r)
      end
  end

(** The elements of a non-empty array, separated by commas, up to and
    including the closing bracket. *)
with parse_elements (fuel : nat) (cs : list N)
  : option (list value * list N) :=
  match fuel with
  | O => None
  | S f =>
      match parse_value f cs with
      | None => None
      | Some (v, r) =>
          match skip_ws r with
          | c :: r' =>
              if c =? 44 then cons_result v (parse_elements f r')
              else if c =? 93 then Some ([v], r')
              else None
          | [] => None
          end
      end
  end

(** The members [string : value] of a non-empty object, separated by
    commas, up to and including the closing brace. *)
with parse_members (fuel : nat) (cs : list N)
  : option (list (jsstring * value) * list N) :=
  match fuel with
  | O => None
  | S f =>
      match skip_ws cs with
      | q :: r0 =>
          if q =? 34 then
            match parse_chars r0 with
            | None => None
            | Some (k, r1) =>
                match skip_ws r1 with
                | c :: r2 =>
                    if c =? 58 then
                      match parse_value f r2 with
                      | None => None
                      | Some (v, r3) =>
                          match skip_ws r3 with
                          | d :: r4 =>
                              if d =? 44
                              then cons_result (k, v) (parse_members f r4)
                              else if d =? 125 then Some ([(k, v)], r4)
                              else None
                          | [] => None
                          end
                      end
                    else None
                | [] => None
                end
            end
          else None
      | [] => None
      end
  end.

(** [JSON.parse(text)]: [None] stands for the [SyntaxError] it throws. *)
Definition parse (text : jsstring) : option value :=
  match parse_value (2 * length text + 2) text with
  | Some (v, r) =>
      match skip_ws r with
      | [] => Some v
      | _ :: _ => None
      end
  | None => None
  end.

(** *** Serialization of the leaderboard

    [JSON.stringify] applied to an array of [HighScore] objects, whose
    properties were created in the order [name], [score], [date]. *)

Definition hex_char (h : N) : N := if h <? 10 then 48 + h else 87 + h.

(** The six characters of a [\u] escape, with lower-case digits. *)
Definition u_escape (c : N) : list N :=
  [92; 117; hex_char (c / 4096 mod 16); hex_char (c / 256 mod 16);
   hex_char (c / 16 mod 16); hex_char (c mod 16)].

Definition is_high_surrogate (c : N) : bool := (55296 <=? c) && (c <=? 56319).
Definition is_low_surrogate (c : N) : bool := (56320 <=? c) && (c <=? 57343).

(** The characters of a quoted string, without the enclosing quotes: the
    two-character escapes, [\u] escapes for the other control characters
    and for unpaired surrogates, everything else as it is. *)
Fixpoint quote_chars (cs : jsstring) : list N :=
  match cs with
  | [] => []
  | c :: r =>
      if c =? 8 then 92 :: 98 :: quote_chars r
      else if c =? 9 then 92 :: 116 :: quote_chars r
      else if c =? 10 then 92 :: 110 :: quote_chars r
      else if c =? 12 then 92 :: 102 :: quote_chars r
      else if c =? 13 then 92 :: 114 :: quote_chars r
      else if c =? 34 then 92 :: 34 :: quote_chars r
      else if c =? 92 then 92 :: 92 :: quote_chars r
      else if c <? 32 then u_escape c ++ quote_chars r
      else if is_high_surrogate c then
        match r with
        | d :: r' =>
            if is_low_surrogate d then c :: d :: quote_chars r'
            else u_escape c ++ quote_chars r
        | [] => u_escape c
        end
      else if is_low_surrogate c then u_escape c ++ quote_chars r
      else c :: quote_chars r
  end.

Definition quote (s : jsstring) : list N := 34 :: quote_chars s ++ [34].

(** The decimal digits of [n] in front of [acc], least significant digit
    first computed; [fuel] bounds the number of digits. *)
Fixpoint digits_of (fuel : nat) (n : N) (acc : list N) : list N :=
  match fuel with
  | O => acc
  | S f =>
      let acc' := (48 + n mod 10) :: acc in
      if n / 10 =? 0 then acc' else digits_of f (n / 10) acc'
  end.

Definition decimal (n : N) : list N :=
  digits_of (S (N.to_nat (N.log2 n))) n [].

(** An integer as [JSON.stringify] writes it: in plain decimal notation,
    which is the notation of every number of magnitude below 10^21. *)
Definition number (z : Z) : list N :=
  match z with
  | Zneg p => 45 :: decimal (Npos p)
  | _ => decimal (Z.to_N z)
  end.

Definition stringify_HighScore (h : HighScore.t) : list N :=
  str "{" ++ quote (str "name") ++ str ":" ++ quote (HighScore.name h)
  ++ str "," ++ quote (str "score") ++ str ":" ++ number (HighScore.score h)
  ++ str "," ++ quote (str "date") ++ str ":" ++ quote (HighScore.date h)
  ++ str "}".

Fixpoint stringify_elements (l : list HighScore.t) : list N :=
  match l with
  | [] => []
  | [h] => stringify_HighScore h
  | h :: r => stringify_HighScore h ++ str "," ++ stringify_elements r
  end.

Definition stringify (scores : list HighScore.t) : jsstring :=
  str "[" ++ stringify_elements scores ++ str "]".

(** *** Reading a parsed value at the type [HighScore[]]

    The component uses the result of [JSON.parse] at the type
    [HighScore[]] without checking it.  These functions recognise the values
    that have that type: an array of objects with a string [name], an
    integer [score] and a string [date]. *)

(** A property of a parsed object; of duplicate keys the last one counts. *)
Definition get (k : jsstring) (ms : list (jsstring * value))
  : option value :=
  match find (fun kv => code_eqb (fst kv) k) (rev ms) with
  | Some kv => Some (snd kv)
  | None => None
  end.

Definition as_string (v : value) : option jsstring :=
  match v with
  | JString s => Some s
  | _ => None
  end.

Definition as_integer (v : value) : option Z :=
  match v with
  | JNumber m e =>
      if (0 <=? e)%Z then Some (m * 10 ^ e)%Z
      else if (m mod 10 ^ (- e) =? 0)%Z then Some (m / 10 ^ (- e))%Z
      else None
  | _ => None
  end.

Definition as_HighScore (v : value) : option HighScore.t :=
  match v with
  | JObject ms =>
      match get (str "name") ms, get (str "score") ms,
            get (str "date") ms with
      | Some n, Some sc, Some d =>
          match as_string n, as_integer sc, as_string d with
          | Some n', Some sc', Some d' => Some (HighScore.mk n' sc' d')
          | _, _, _ => None
          end
      | _, _, _ => None
      end
  | _ => None
  end.

Fixpoint as_all (vs : list value) : option (list HighScore.t) :=
  match vs with
  | [] => Some []
  | v :: r =>
      match as_HighScore v, as_all r with
      | Some h, Some hs => Some (h :: hs)
      | _, _ => None
      end
  end.

Definition as_HighScores (v : value) : option (list HighScore.t) :=
  match v with
  | JArray vs => as_all vs
  | _ => None
  end.

(** *** Vocabulary for reading back what was written *)

(** A numeral as [JSON.stringify] writes a natural number: digits only, at
    least one, and no leading zero. *)
Definition numeral (ds : list N) : Prop :=
  forallb is_digit ds = true /\ ds <> [] /\ (hd 0 ds = 48 -> ds = [48]).

(** What can follow a number in the text written for the leaderboard. *)
Definition ends_number (c : N) : Prop :=
  is_digit c = false /\ c <> 46 /\ c <> 101 /\ c <> 69.

(** The value that the text written for an entry denotes. *)
Definition value_of (h : HighScore.t) : value :=
  JObject [(str "name", JString (HighScore.name h));
           (str "score", JNumber (HighScore.score h) 0);
           (str "date", JString (HighScore.date h))].

(** The parsers never return more text than they were given. *)
Definition shrinks {A} (p : list N -> option (A * list N)) : Prop :=
  forall cs a r, p cs = Some (a, r) -> (length r <= length cs)%nat.

End JSON.

(** ** The leaderboard store *)

Inductive Error := SyntaxError.

Inductive Outcome (A : Type) :=
| Returns (a : A)
| Throws (e : Error).
Arguments Returns {A} a.
Arguments Throws {A} e.

(** The initializer of the [highScores] state cell:
    [saved ? JSON.parse(saved) : []], where [saved] is what [getItem]
    returned.  Both [null] and the empty string are falsy. *)
Definition initHighScores (saved : option jsstring) : Outcome JSON.value :=
  match saved with
  | None => Returns (JSON.JArray [])
  | Some [] => Returns (JSON.JArray [])
  | Some text =>
      match JSON.parse text with
      | Some v => Returns v
      | None => Throws SyntaxError
      end
  end.

(** The first render of the component, given the content of the storage
    slot.  An exception of the initializer is not caught anywhere, so the
    component does not mount; a value that is not a [HighScore[]] is outside
    the typed model of the state. *)
Inductive Mount :=
| Mounted (s : State)
| IllTyped (v : JSON.value)
| Crashed (e : Error).

Definition mount (saved : option jsstring) : Mount :=
  match initHighScores saved with
  | Throws e => Crashed e
  | Returns v =>
      match JSON.as_HighScores v with
      | Some hs =>
          Mounted (mkState INITIAL_SNAKE INITIAL_FOOD INITIAL_DIRECTION
                     waiting 0 hs false [] 0 saved [])
      | None => IllTyped v
      end
  end.

Definition saveHighScores (scores : list HighScore.t) (s : State) : State :=
  setItem (JSON.stringify scores) s.

(** [checkForNewHighScore(finalScore)] in a render whose leaderboard is
    [hs]: the returned boolean and the state after its setters.  The index
    [hs.length - 1] is only read when [hs.length >= MAX_HIGH_SCORES], where
    it is in range. *)
Definition qualifies (hs : list HighScore.t) (finalScore : Z) : bool :=
  if finalScore =? 0 then false
  else if (length hs <? MAX_HIGH_SCORES)%nat then true
  else match nth_error hs (length hs - 1) with
       | Some lowest => HighScore.score lowest <? finalScore
       | None => false
       end.

Definition checkForNewHighScore (hs : list HighScore.t) (finalScore : Z)
  (s : State) : bool * State :=
  if qualifies hs finalScore
  then (true, setShowNameDialog true (setNewHighScore finalScore s))
  else (false, s).

(** The comparator [(a, b) => b.score - a.score]. *)
Definition byScoreDescending (a b : HighScore.t) : Z :=
  HighScore.score b - HighScore.score a.

(** [Array.prototype.sort] with a comparator: a stable sort, here by
    insertion.  An element goes in front of the first one it does not
    compare greater than. *)
Fixpoint insert {A} (cmp : A -> A -> Z) (a : A) (l : list A) : list A :=
  match l with
  | [] => [a]
  | b :: r => if cmp a b <=? 0 then a :: l else b :: insert cmp a r
  end.

Definition sort {A} (cmp : A -> A -> Z) (l : list A) : list A :=
  fold_right (insert cmp) [] l.

(** [savePlayerHighScore()], where [today] is what
    [new Date().toLocaleDateString()] returns. *)
Definition savePlayerHighScore (today : jsstring) (s : State) : State :=
  match trim (playerName s) with
  | [] => s
  | _ :: _ =>
      let newScore :=
        HighScore.mk (trim (playerName s)) (newHighScore s) today in
      let updatedScores :=
        firstn MAX_HIGH_SCORES
          (sort byScoreDescending (highScores s ++ [newScore])) in
      setPlayerName []
        (setShowNameDialog false
           (saveHighScores updatedScores (setHighScores updatedScores s)))
  end.

(** ** The game engine *)

(** [generateFood(snakeBody)]: the do-while loop draws two random numbers
    per round.  [rands] holds the draws still to come; the result is the food
    with the draws left over, or [None] when the loop has not left after all
    the draws of [rands]. *)
Fixpoint generateFood (rands : list Z) (snakeBody : list Position)
  : option (Position * list Z) :=
  match rands with
  | rx :: ry :: rest =>
      let newFood := mkPosition rx ry in
      if existsb (same_cell newFood) snakeBody
      then generateFood rest snakeBody
      else Some (newFood, rest)
  | _ => None
  end.

Definition resetGame (s : State) : State :=
  setGameState waiting
    (setScore 0
       (setDirection INITIAL_DIRECTION
          (setFood INITIAL_FOOD (setSnake INITIAL_SNAKE s)))).

Definition startGame (s : State) : State := setGameState playing s.

Definition pauseGame (s : State) : State :=
  setGameState (if GameState_eqb (gameState s) paused then playing else paused)
    s.

(** [head.x += direction.x; head.y += direction.y] on a copy of the first
    segment. *)
Definition advance (first : Position) (d : Direction) : Position :=
  mkPosition (x first + x d) (y first + y d).

(** A collision: [setGameState('gameOver')], the high-score check set to
    fire later, and [return prevSnake]. *)
Definition endGame (s : State) : State :=
  setTimeouts (timeouts s ++ [mkTimeout (score s) (highScores s)])
    (setGameState gameOver s).

(** [moveSnake()], one tick of the interval timer.  The result is [None]
    when [generateFood] has not returned within the draws of [rands].  On an
    empty snake the head has no coordinates: no comparison succeeds, the
    dummy head is put in front and popped again, and nothing changes. *)
Definition moveSnake (rands : list Z) (s : State) : option State :=
  match gameState s with
  | playing =>
      match snake s with
      | [] => Some s
      | first :: _ =>
          let head := advance first (direction s) in
          if (x head <? 0) || (x head >=? GRID_SIZE)
             || (y head <? 0) || (y head >=? GRID_SIZE)
          then Some (endGame s)
          else if existsb (same_cell head) (snake s)
          then Some (endGame s)
          else
            let newSnake := head :: snake s in
            if (x head =? x (food s)) && (y head =? y (food s))
            then
              match generateFood rands newSnake with
              | Some (newFood, _) =>
                  Some (setSnake newSnake
                          (setFood newFood (setScore (score s + 10) s)))
              | None => None
              end
            else Some (setSnake (removelast newSnake) s)
      end
  | _ => Some s
  end.

Inductive Key := ArrowUp | ArrowDown | ArrowLeft | ArrowRight | Space | OtherKey.

Definition handleKeyPress (key : Key) (s : State) : State :=
  match gameState s with
  | gameOver | waiting => s
  | _ =>
      match key with
      | ArrowUp =>
          if y (direction s) =? 0 then setDirection (mkPosition 0 (-1)) s
          else s
      | ArrowDown =>
          if y (direction s) =? 0 then setDirection (mkPosition 0 1) s else s
      | ArrowLeft =>
          if x (direction s) =? 0 then setDirection (mkPosition (-1) 0) s
          else s
      | ArrowRight =>
          if x (direction s) =? 0 then setDirection (mkPosition 1 0) s else s
      | Space => pauseGame s
      | OtherKey => s
      end
  end.

(** The on-screen controls.  A disabled button does not deliver its click. *)
Inductive Button :=
| UpButton | DownButton | LeftButton | RightButton | PauseButton
| StartButton | PlayAgainButton.

Definition click (b : Button) (s : State) : State :=
  let arrow (turn : Direction -> Direction) :=
    match gameState s with
    | playing => setDirection (turn (direction s)) s
    | _ => s
    end in
  match b with
  | UpButton =>
      arrow (fun prev => if y prev =? 0 then mkPosition 0 (-1) else prev)
  | LeftButton =>
      arrow (fun prev => if x prev =? 0 then mkPosition (-1) 0 else prev)
  | RightButton =>
      arrow (fun prev => if x prev =? 0 then mkPosition 1 0 else prev)
  | DownButton =>
      arrow (fun prev => if y prev =? 0 then mkPosition 0 1 else prev)
  | PauseButton =>
      match gameState s with
      | waiting | gameOver => s
      | _ => pauseGame s
      end
  | StartButton =>
      (* rendered in the overlay of the waiting state only *)
      match gameState s with
      | waiting => startGame s
      | _ => s
      end
  | PlayAgainButton =>
      (* rendered in the overlay of the game-over state only *)
      match gameState s with
      | gameOver => resetGame s
      | _ => s
      end
  end.

(** The oldest pending timeout fires and runs its callback. *)
Definition fireTimeout (s : State) : State :=
  match timeouts s with
  | [] => s
  | t :: later =>
      snd (checkForNewHighScore (seenHighScores t) (finalScore t)
             (setTimeouts later s))
  end.

(** What can happen to a mounted component. *)
Inductive Event :=
| Tick (rands : list Z)
| KeyDown (key : Key)
| Click (b : Button)
| TimeoutFires
| TypeName (text : jsstring)
| SubmitName (today : jsstring)
| SkipName.

(** The name-entry form exists while the dialog is open; its input has
    [maxLength={15}]. *)
Definition handle (e : Event) (s : State) : option State :=
  match e with
  | Tick rands => moveSnake rands s
  | KeyDown key => Some (handleKeyPress key s)
  | Click b => Some (click b s)
  | TimeoutFires => Some (fireTimeout s)
  | TypeName text =>
      if showNameDialog s && (length text <=? 15)%nat
      then Some (setPlayerName text s) else Some s
  | SubmitName today =>
      if showNameDialog s then Some (savePlayerHighScore today s) else Some s
  | SkipName => Some (setShowNameDialog false s)
  end.

Fixpoint run (es : list Event) (s : State) : option State :=
  match es with
  | [] => Some s
  | e :: later =>
      match handle e s with
      | Some s' => run later s'
      | None => None
      end
  end.

(** The states a session can be in: the component mounts on some storage
    content and handles events one after the other. *)
Inductive reachable : State -> Prop :=
| reachable_mount saved s :
    mount saved = Mounted s -> reachable s
| reachable_handle e s s' :
    reachable s -> handle e s = Some s' -> reachable s'.

(** ** Vocabulary of the specification *)

(** A cell of the grid: both coordinates in [0, N). *)
Definition in_grid (p : Position) : Prop :=
  0 <= x p < GRID_SIZE /\ 0 <= y p < GRID_SIZE.

(** The draws of a tick, two by two: the cells the food loop will try. *)
Fixpoint candidates (rands : list Z) : list Position :=
  match rands with
  | rx :: ry :: rest => mkPosition rx ry :: candidates rest
  | _ => []
  end.

(** One of the four unit vectors. *)
Definition is_cardinal (d : Direction) : bool :=
  match x d, y d with
  | 0, 1 | 0, -1 | 1, 0 | -1, 0 => true
  | _, _ => false
  end.

Definition anti_parallel (requested d : Direction) : bool :=
  (x requested =? - x d) && (y requested =? - y d).

(** The direction an arrow key asks for. *)
Definition requested (key : Key) : option Direction :=
  match key with
  | ArrowUp => Some (mkPosition 0 (-1))
  | ArrowDown => Some (mkPosition 0 1)
  | ArrowLeft => Some (mkPosition (-1) 0)
  | ArrowRight => Some (mkPosition 1 0)
  | _ => None
  end.

(** The specification's [setDirection]: a request is dropped when it is
    anti-parallel to the direction in effect, and replaces it otherwise. *)
Definition spec_setDirection (d : Direction) (key : Key) : Direction :=
  match requested key with
  | Some r => if anti_parallel r d then d else r
  | None => d
  end.

(** The direction in effect after a series of requests: that of the last
    valid one. *)
Definition last_valid (d : Direction) (keys : list Key) : Direction :=
  fold_left spec_setDirection keys d.

Definition presses (keys : list Key) (s : State) : State :=
  fold_left (fun s' key => handleKeyPress key s') keys s.

(** The leaderboard is in descending order of score. *)
Definition descending (hs : list HighScore.t) : Prop :=
  StronglySorted (fun a b => HighScore.score a >= HighScore.score b) hs.

(** The lowest score on the leaderboard, if it has an entry. *)
Definition lowest_score (hs : list HighScore.t) : option Z :=
  match map HighScore.score hs with
  | [] => None
  | z :: zs => Some (fold_right Z.min z zs)
  end.

(** What the engine keeps true of the scores and of the leaderboard: scores
    are never negative, and the leaderboard, as the state holds it and as the
    pending checks captured it, is in descending order and within capacity. *)
Definition well_kept (s : State) : Prop :=
  0 <= score s /\ 0 <= newHighScore s /\
  descending (highScores s) /\
  (length (highScores s) <= MAX_HIGH_SCORES)%nat /\
  Forall (fun t => 0 <= finalScore t /\ descending (seenHighScores t))
         (timeouts s).

(** The storage is as a fresh browser or this component left it. *)
Definition kept_storage (saved : option jsstring) : Prop :=
  saved = None \/
  exists hs, saved = Some (JSON.stringify hs) /\ descending hs /\
             (length hs <= MAX_HIGH_SCORES)%nat.

(** ** A game played to the end

    A closed tour of the grid: along the top row to the right, then down and
    up the columns 19 to 1 below the top row, and back up column 0. *)
Definition next_on_tour (p : Position) : Position :=
  if (y p =? 0) && (x p <? 19) then mkPosition (x p + 1) 0
  else if x p =? 0 then mkPosition 0 (y p - 1)
  else if Z.odd (x p) then
    if y p <? 19 then mkPosition (x p) (y p + 1) else mkPosition (x p - 1) 19
  else
    if 1 <? y p then mkPosition (x p) (y p - 1) else mkPosition (x p - 1) 1.

Fixpoint tour (n : nat) (p : Position) : list Position :=
  match n with
  | O => []
  | S k => p :: tour k (next_on_tour p)
  end.

(** The whole tour, from the cell above the initial food. *)
Definition full_tour : list Position := tour 400 (mkPosition 15 14).

Definition key_towards (p q : Position) : Key :=
  if x q - x p =? 1 then ArrowRight
  else if x q - x p =? -1 then ArrowLeft
  else if y q - y p =? 1 then ArrowDown
  else ArrowUp.

(** The player steers along the cells and eats at every tick; the random
    draws put each new food on the cell after the next. *)
Fixpoint feed (cells : list Position) : list Event :=
  match cells with
  | a :: rest =>
      match rest with
      | b :: c :: _ =>
          KeyDown (key_towards a b) :: Tick [x c; y c] :: feed rest
      | _ => []
      end
  | [] => []
  end.

(** Start, five cells to the right, four cells down to the cell above the
    food, then along the tour, and a last turn towards the last free cell. *)
Definition winning_game : list Event :=
  [Click StartButton; KeyDown ArrowRight]
  ++ repeat (Tick []) 5 ++ [KeyDown ArrowDown] ++ repeat (Tick []) 4
  ++ feed full_tour
  ++ [KeyDown (key_towards (nth 398 full_tour INITIAL_FOOD)
                           (nth 399 full_tour INITIAL_FOOD))].

(** The board one tick before the snake fills the grid: the snake lies on
    all the cells of the tour but the last, where the food is. *)
Definition last_free_cell : State :=
  mkState (rev (firstn 399 full_tour)) (nth 399 full_tour INITIAL_FOOD)
    (mkPosition 0 1) playing 3980 [] false [] 0 None [].

(** All the cells of the grid. *)
Definition grid_cells : list Position :=
  flat_map (fun i => map (fun j => mkPosition (Z.of_nat i) (Z.of_nat j))
                       (seq 0 20)) (seq 0 20).

(** ** Boards and games used as examples *)

Definition body_ok (s : State) : Prop :=
  NoDup (snake s) /\ snake s <> [].

Definition facing_left_wall : State :=
  mkState [mkPosition 0 7; mkPosition 1 7] INITIAL_FOOD (mkPosition (-1) 0)
    playing 20 [] false [] 0 None [].

Definition about_to_eat : State :=
  mkState [mkPosition 15 14; mkPosition 15 13] INITIAL_FOOD (mkPosition 0 1)
    playing 0 [] false [] 0 None [].

Definition about_to_turn : State :=
  mkState [mkPosition 11 10] INITIAL_FOOD (mkPosition 1 0) playing 0 []
    false [] 0 None [].

Definition full_board : list HighScore.t :=
  [HighScore.mk (str "A") 300 (str "1/1/2025");
   HighScore.mk (str "B") 250 (str "1/2/2025");
   HighScore.mk (str "C") 200 (str "1/3/2025");
   HighScore.mk (str "D") 150 (str "1/4/2025");
   HighScore.mk (str "E") 100 (str "1/5/2025")].

(** A game that scores 10 and ends on the bottom wall, then PLAY AGAIN and
    START GAME before the check of the ended game fires. *)
Definition ended_game : list Event :=
  [Click StartButton; KeyDown ArrowRight]
  ++ repeat (Tick []) 5 ++ [KeyDown ArrowDown] ++ repeat (Tick []) 4
  ++ [Tick [3; 4]] ++ repeat (Tick []) 5.

Definition new_game_started : list Event :=
  ended_game ++ [Click PlayAgainButton; Click StartButton].

Definition fresh : State :=
  mkState INITIAL_SNAKE INITIAL_FOOD INITIAL_DIRECTION waiting 0 [] false []
    0 None [].

Definition just_ended : State :=
  mkState [mkPosition 15 19; mkPosition 15 18] (mkPosition 3 4)
    (mkPosition 0 1) gameOver 10 [] false [] 0 None [mkTimeout 10 []].

Definition naming : State :=
  mkState [mkPosition 15 19] (mkPosition 3 4) (mkPosition 0 1) gameOver 120
    full_board true (str " Zed ") 120 None [].

(** ** Vocabulary of the board *)

(** Two cells that share a side. *)
Definition adjacent (p q : Position) : Prop :=
  Z.abs (x p - x q) + Z.abs (y p - y q) = 1.

(** Every segment shares a side with the next one. *)
Fixpoint chain (body : list Position) : Prop :=
  match body with
  | a :: rest =>
      match rest with
      | b :: _ => adjacent a b /\ chain rest
      | [] => True
      end
  | [] => True
  end.

(** The draws of a tick are values of
    [Math.floor(Math.random() * GRID_SIZE)]: integers of [0, GRID_SIZE). *)
Definition draws_in_grid (e : Event) : Prop :=
  match e with
  | Tick rands => Forall (fun r => 0 <= r < GRID_SIZE) rands
  | _ => True
  end.

(** What the engine keeps true of the board. *)
Definition board_ok (s : State) : Prop :=
  NoDup (snake s) /\ snake s <> [] /\
  Forall in_grid (snake s) /\
  ~ In (food s) (snake s) /\
  chain (snake s) /\
  is_cardinal (direction s) = true /\
  score s = 10 * (Z.of_nat (length (snake s)) - 1).

(** The board one tick after the first food was eaten. *)
Definition after_first_food : State :=
  mkState [mkPosition 15 16; mkPosition 15 15] (mkPosition 3 4)
    (mkPosition 0 1) playing 10 [] false [] 0 None [].

(** ** Vocabulary of the leaderboard *)

(** Where a stable descending sort puts a new entry on a leaderboard that
    is in descending order: behind every entry whose score is at least its
    own, in front of the others. *)
Definition placed (new : HighScore.t) (hs : list HighScore.t)
  : list HighScore.t :=
  filter (fun h => HighScore.score new <=? HighScore.score h) hs
  ++ new :: filter (fun h => HighScore.score h <? HighScore.score new) hs.

(** [currentHighScore]: [highScores.length > 0 ? highScores[0].score : 0],
    the score shown as Best. *)
Definition currentHighScore (s : State) : Z :=
  match highScores s with
  | best :: _ => HighScore.score best
  | [] => 0
  end.

(** The storage slot holds what the leaderboard of the state is read
    from. *)
Definition in_sync (s : State) : Prop :=
  (localStorage s = None /\ highScores s = [])
  \/ localStorage s = Some (JSON.stringify (highScores s)).

Definition tying : State :=
  mkState [mkPosition 15 19] (mkPosition 3 4) (mkPosition 0 1) gameOver 200
    full_board true (str "Zed") 200 None [].

Definition too_low : State :=
  mkState [mkPosition 15 19] (mkPosition 3 4) (mkPosition 0 1) gameOver 100
    full_board true (str "Zed") 100 None [].

(** A final score the engine can produce and the leaderboard accepts: a
    positive multiple of 10, at most 3990. *)
Definition valid_score (c : Z) : Prop :=
  0 < c <= 3990 /\ c mod 10 = 0.

(** An entry as the name dialog makes it: the name is trimmed, not empty,
    at most 15 code units long, and the score is a valid final score. *)
Definition valid_record (h : HighScore.t) : Prop :=
  trim (HighScore.name h) = HighScore.name h /\
  HighScore.name h <> [] /\
  (length (HighScore.name h) <= 15)%nat /\
  valid_score (HighScore.score h).

(** What the engine keeps true of the name dialog and of the pending
    checks. *)
Definition records_ok (s : State) : Prop :=
  Forall valid_record (highScores s) /\
  (length (playerName s) <= 15)%nat /\
  (showNameDialog s = true -> valid_score (newHighScore s)) /\
  Forall (fun t => 0 <= finalScore t <= 3990 /\ finalScore t mod 10 = 0)
         (timeouts s) /\
  board_ok s.

(** The board of a game with one food eaten, one tick before the bottom
    wall. *)
Definition facing_bottom_wall : State :=
  mkState [mkPosition 15 19; mkPosition 15 18] (mkPosition 3 4)
    (mkPosition 0 1) playing 10 [] false [] 0 None [].

(** A game that scores 10, ends on the bottom wall and is entered on the
    leaderboard. *)
Definition recorded_game : list Event :=
  ended_game
  ++ [TimeoutFires; TypeName (32%N :: str "Al " ); SubmitName (str "1/1/2026")].

(** The cells of the state that make up the game itself. *)
Definition engine (s : State)
  : list Position * Position * Direction * GameState * Z :=
  (snake s, food s, direction s, gameState s, score s).

Definition opposite (d : Direction) : Direction :=
  mkPosition (- x d) (- y d).

(** The key that asks for what an on-screen arrow asks for. *)
Definition arrow_key (b : Button) : option Key :=
  match b with
  | UpButton => Some ArrowUp
  | DownButton => Some ArrowDown
  | LeftButton => Some ArrowLeft
  | RightButton => Some ArrowRight
  | _ => None
  end.

(** ** The board as it is drawn *)

(** The cell drawn at [index]: [x = index % GRID_SIZE],
    [y = Math.floor(index / GRID_SIZE)]. *)
Definition cell_of_index (index : nat) : Position :=
  mkPosition (Z.of_nat index mod GRID_SIZE) (Z.of_nat index / GRID_SIZE).

(** The indices of [Array.from({ length: GRID_SIZE * GRID_SIZE })]. *)
Definition board_indices : list nat :=
  seq 0 (Z.to_nat (GRID_SIZE * GRID_SIZE)).

Definition isSnake (s : State) (p : Position) : bool :=
  existsb (same_cell p) (snake s).

(** [snake[0]?.x === x && snake[0]?.y === y]: false on an empty snake. *)
Definition isHead (s : State) (p : Position) : bool :=
  match snake s with
  | first :: _ => (x first =? x p) && (y first =? y p)
  | [] => false
  end.

Definition isFood (s : State) (p : Position) : bool :=
  (x (food s) =? x p) && (y (food s) =? y p).

(** The background of a cell: the head colour, the body colour or none. *)
Inductive Paint := HeadPaint | BodyPaint | NoPaint.

Definition paint (s : State) (index : nat) : Paint :=
  let p := cell_of_index index in
  if isSnake s p then (if isHead s p then HeadPaint else BodyPaint)
  else NoPaint.

Definition showsFood (s : State) (index : nat) : bool :=
  isFood s (cell_of_index index).

Definition is_painted (c : Paint) : bool :=
  match c with
  | NoPaint => false
  | _ => true
  end.

Definition is_head_paint (c : Paint) : bool :=
  match c with
  | HeadPaint => true
  | _ => false
  end.

(** The index at which a cell of the grid is drawn. *)
Definition index_of_cell (p : Position) : nat :=
  Z.to_nat (y p * GRID_SIZE + x p).

(** ** The scores as they are shown *)

(** [Number.prototype.toString] on an integer. *)
Definition toString (z : Z) : jsstring := JSON.number z.

(** [padStart(targetLength, padString)] with a pad string of one
    character. *)
Definition padStart (targetLength : nat) (padChar : N) (s : jsstring)
  : jsstring :=
  repeat padChar (targetLength - length s) ++ s.

(** [score.toString().padStart(4, '0')] *)
Definition scoreText (z : Z) : jsstring := padStart 4 48%N (toString z).

(** A text of exactly four digits that reads as [z]. *)
Definition four_digits_of (z : Z) (text : jsstring) : bool :=
  (length text =? 4)%nat && forallb JSON.is_digit text
  && (Z.of_N (JSON.digits_value text) =? z).

(** ** Cells and bodies *)

Lemma same_cell_iff p q : same_cell p q = true <-> q = p.
Proof.
  unfold same_cell. rewrite andb_true_iff, !Z.eqb_eq.
  destruct p, q; simpl. split.
  - intros [-> ->]. reflexivity.
  - intros [= -> ->]. split; reflexivity.
Qed.

Lemma on_body_iff p body : existsb (same_cell p) body = true <-> In p body.
Proof.
  rewrite existsb_exists. split.
  - intros [q [Hin Hq]]. apply same_cell_iff in Hq. subst. exact Hin.
  - intros Hin. exists p. split; [exact Hin | now apply same_cell_iff].
Qed.

Lemma off_body_iff p body : existsb (same_cell p) body = false <-> ~ In p body.
Proof.
  rewrite <- on_body_iff. destruct (existsb (same_cell p) body); split;
    congruence.
Qed.

Lemma hits_wall_iff p :
  (x p <? 0) || (x p >=? GRID_SIZE) || (y p <? 0) || (y p >=? GRID_SIZE) = true
  <-> ~ in_grid p.
Proof.
  unfold in_grid, GRID_SIZE. rewrite !orb_true_iff, !Z.ltb_lt, !Z.geb_le.
  lia.
Qed.

Lemma eats_iff p q : (x p =? x q) && (y p =? y q) = true <-> p = q.
Proof.
  rewrite andb_true_iff, !Z.eqb_eq. destruct p, q; simpl. split.
  - intros [-> ->]. reflexivity.
  - intros [= -> ->]. split; reflexivity.
Qed.

Lemma removelast_length {A} (a : A) (l : list A) :
  length (removelast (a :: l)) = length l.
Proof.
  revert a. induction l as [|b l IH]; intros a; [reflexivity|].
  change (removelast (a :: b :: l)) with (a :: removelast (b :: l)).
  cbn [length]. now rewrite IH.
Qed.

Lemma In_removelast {A} (a : A) (l : list A) :
  In a (removelast l) -> In a l.
Proof.
  induction l as [|b l IH]; [intros []|].
  destruct l as [|c l]; [intros []|].
  change (removelast (b :: c :: l)) with (b :: removelast (c :: l)).
  intros [->|H]; [now left | right; now apply IH].
Qed.

Lemma NoDup_removelast {A} (l : list A) : NoDup l -> NoDup (removelast l).
Proof.
  induction 1 as [|a l Hnin Hnd IH]; [constructor|].
  destruct l as [|b l]; [constructor|].
  change (removelast (a :: b :: l)) with (a :: removelast (b :: l)).
  constructor; [|exact IH].
  intros Hin. apply Hnin. now apply In_removelast.
Qed.

(** ** The food loop *)

(** Induction on a list of draws, two draws at a time. *)
Lemma draws_ind (P : list Z -> Prop) :
  P [] -> (forall a, P [a]) -> (forall a b l, P l -> P (a :: b :: l)) ->
  forall l, P l.
Proof.
  intros H0 H1 H2.
  assert (both : forall l, P l /\ forall a, P (a :: l)).
  { induction l as [|b l [IHl IHl']]; split; auto. }
  intros l. apply both.
Qed.

Lemma generateFood_free rands body newFood rest :
  generateFood rands body = Some (newFood, rest) ->
  ~ In newFood body /\ In newFood (candidates rands).
Proof.
  induction rands as [|rx|rx ry more IH] using draws_ind; try discriminate.
  simpl. destruct (existsb _ body) eqn:Hon.
  - intros H. apply IH in H. tauto.
  - intros [= <- <-]. apply off_body_iff in Hon. tauto.
Qed.

Lemma generateFood_returns rands body :
  Exists (fun p => ~ In p body) (candidates rands) ->
  exists newFood rest, generateFood rands body = Some (newFood, rest).
Proof.
  induction rands as [|rx|rx ry more IH] using draws_ind; simpl; intros H;
    try (inversion H; fail).
  destruct (existsb _ body) eqn:Hon.
  - apply IH. inversion H as [? ? Hfree|]; subst; [|assumption].
    apply on_body_iff in Hon. contradiction.
  - eauto.
Qed.

Lemma generateFood_stuck rands body :
  Forall (fun p => In p body) (candidates rands) ->
  generateFood rands body = None.
Proof.
  induction rands as [|rx|rx ry more IH] using draws_ind; simpl; intros H;
    try reflexivity.
  inversion H as [|? ? Hon Hrest]; subst.
  apply on_body_iff in Hon. rewrite Hon. now apply IH.
Qed.

(** ** One tick *)

Section Tick.

Variables (rands : list Z) (s : State) (first : Position)
          (rest : list Position).
Hypothesis Hplaying : gameState s = playing.
Hypothesis Hsnake : snake s = first :: rest.

Let head := advance first (direction s).

Lemma moveSnake_collision :
  ~ in_grid head \/ In head (snake s) ->
  moveSnake rands s = Some (endGame s).
Proof.
  intros Hhit. unfold moveSnake. rewrite Hplaying, Hsnake.
  fold head. rewrite <- Hsnake.
  destruct (_ || _ || _ || _) eqn:Hwall; [reflexivity|].
  destruct Hhit as [Hout|Hself].
  - apply hits_wall_iff in Hout. congruence.
  - apply on_body_iff in Hself. now rewrite Hself.
Qed.

Hypothesis Hinside : in_grid head.
Hypothesis Hclear : ~ In head (snake s).

Lemma moveSnake_no_collision :
  moveSnake rands s =
  if (x head =? x (food s)) && (y head =? y (food s))
  then match generateFood rands (head :: snake s) with
       | Some (newFood, _) =>
           Some (setSnake (head :: snake s)
                   (setFood newFood (setScore (score s + 10) s)))
       | None => None
       end
  else Some (setSnake (removelast (head :: snake s)) s).
Proof.
  unfold moveSnake. rewrite Hplaying, Hsnake. fold head. rewrite <- Hsnake.
  destruct (_ || _ || _ || _) eqn:Hwall.
  { apply hits_wall_iff in Hwall. contradiction. }
  apply off_body_iff in Hclear. now rewrite Hclear.
Qed.

Lemma moveSnake_moves :
  head <> food s ->
  moveSnake rands s = Some (setSnake (removelast (head :: snake s)) s).
Proof.
  intros Hne. rewrite moveSnake_no_collision.
  destruct (_ && _) eqn:Heat; [|reflexivity].
  apply eats_iff in Heat. contradiction.
Qed.

Lemma moveSnake_eats newFood left :
  head = food s ->
  generateFood rands (head :: snake s) = Some (newFood, left) ->
  moveSnake rands s =
  Some (setSnake (head :: snake s)
          (setFood newFood (setScore (score s + 10) s))).
Proof.
  intros Heq Hgen. rewrite moveSnake_no_collision.
  apply eats_iff in Heq. now rewrite Heq, Hgen.
Qed.

Lemma moveSnake_hangs :
  head = food s ->
  Forall (fun p => In p (head :: snake s)) (candidates rands) ->
  moveSnake rands s = None.
Proof.
  intros Heq Hfull. rewrite moveSnake_no_collision.
  apply eats_iff in Heq. rewrite Heq.
  now rewrite (generateFood_stuck _ _ Hfull).
Qed.

End Tick.

(** ** The body of the snake never overlaps itself *)

Lemma body_ok_same_snake s s' :
  snake s' = snake s -> body_ok s -> body_ok s'.
Proof. unfold body_ok. now intros ->. Qed.

Lemma moveSnake_body_ok rands s s' :
  body_ok s -> moveSnake rands s = Some s' -> body_ok s'.
Proof.
  intros [Hnd Hne] Hmove.
  destruct (gameState s) eqn:Hgs;
    try (unfold moveSnake in Hmove; rewrite Hgs in Hmove;
         injection Hmove as <-; now split).
  destruct (snake s) as [|first rest] eqn:Hsn; [contradiction|].
  set (head := advance first (direction s)).
  destruct (existsb (same_cell head) (snake s)) eqn:Hself.
  { apply on_body_iff in Hself.
    rewrite (moveSnake_collision rands s first rest Hgs Hsn) in Hmove
      by (right; exact Hself).
    injection Hmove as <-. split; simpl; rewrite Hsn; congruence. }
  apply off_body_iff in Hself.
  destruct ((x head <? 0) || (x head >=? GRID_SIZE)
            || (y head <? 0) || (y head >=? GRID_SIZE)) eqn:Hwall.
  { apply hits_wall_iff in Hwall.
    rewrite (moveSnake_collision rands s first rest Hgs Hsn) in Hmove
      by (left; exact Hwall).
    injection Hmove as <-. split; simpl; rewrite Hsn; congruence. }
  assert (Hin : in_grid head).
  { destruct (hits_wall_iff head) as [_ H].
    unfold in_grid, GRID_SIZE in *.
    destruct (Z_lt_dec (x head) 0), (Z_lt_dec (x head) 20),
             (Z_lt_dec (y head) 0), (Z_lt_dec (y head) 20);
      try lia; rewrite H in Hwall by lia; discriminate. }
  rewrite (moveSnake_no_collision rands s first rest Hgs Hsn Hin Hself)
    in Hmove.
  fold head in Hmove.
  assert (Hgrown : NoDup (head :: snake s)) by (rewrite Hsn in *; now constructor).
  destruct (_ && _).
  - destruct (generateFood _ _) as [[newFood left]|]; [|discriminate].
    injection Hmove as <-. split; simpl; [exact Hgrown | discriminate].
  - injection Hmove as <-. split.
    + change (NoDup (removelast (head :: snake s))).
      now apply NoDup_removelast.
    + change (removelast (head :: snake s) <> []).
      rewrite Hsn. discriminate.
Qed.

Lemma handle_body_ok e s s' :
  body_ok s -> handle e s = Some s' -> body_ok s'.
Proof.
  intros Hok. destruct e as [rands|key|b| |text|today|]; simpl.
  - now apply moveSnake_body_ok.
  - intros [= <-]. revert Hok. apply body_ok_same_snake.
    unfold handleKeyPress, pauseGame.
    destruct (gameState s), key; try reflexivity;
      match goal with |- context [if ?c then _ else _] => destruct c end;
      reflexivity.
  - intros [= <-]. unfold click, startGame, pauseGame, resetGame.
    destruct b, (gameState s); try exact Hok;
      try (revert Hok; apply body_ok_same_snake; reflexivity).
    split; simpl; [|discriminate].
    constructor; [intros []|constructor].
  - intros [= <-]. revert Hok. apply body_ok_same_snake.
    unfold fireTimeout, checkForNewHighScore.
    destruct (timeouts s); [reflexivity|].
    destruct (qualifies _ _); reflexivity.
  - destruct (_ && _); intros [= <-]; [|exact Hok].
    revert Hok. now apply body_ok_same_snake.
  - destruct (showNameDialog s); intros [= <-]; [|exact Hok].
    revert Hok. apply body_ok_same_snake.
    unfold savePlayerHighScore. now destruct (trim _).
  - intros [= <-]. revert Hok. now apply body_ok_same_snake.
Qed.

Lemma mount_body_ok saved s : mount saved = Mounted s -> body_ok s.
Proof.
  unfold mount. destruct (initHighScores saved); [|discriminate].
  destruct (JSON.as_HighScores a); [|discriminate].
  intros [= <-]. split; simpl; [|discriminate].
  constructor; [intros []|constructor].
Qed.

Lemma reachable_body_ok s : reachable s -> body_ok s.
Proof.
  induction 1 as [saved s Hm|e s s' _ IH Hh].
  - now apply mount_body_ok in Hm.
  - now apply handle_body_ok in Hh.
Qed.

Lemma reachable_run es s s' :
  reachable s -> run es s = Some s' -> reachable s'.
Proof.
  revert s. induction es as [|e es IH]; simpl; intros s Hr.
  - now intros [= <-].
  - destruct (handle e s) as [s1|] eqn:Hh; [|discriminate].
    apply IH. now apply reachable_handle with (e := e) (s := s).
Qed.

(** ** The grid can fill up *)

Lemma in_grid_cells p : in_grid p -> In p grid_cells.
Proof.
  unfold in_grid, GRID_SIZE, grid_cells. intros [Hx Hy].
  apply in_flat_map. exists (Z.to_nat (x p)). split.
  - apply in_seq. lia.
  - apply in_map_iff. exists (Z.to_nat (y p)). split.
    + destruct p as [px py]; simpl in *. f_equal; lia.
    + apply in_seq. lia.
Qed.

Lemma candidates_in_grid rands :
  Forall (fun r => 0 <= r < GRID_SIZE) rands ->
  Forall in_grid (candidates rands).
Proof.
  induction rands as [|rx|rx ry more IH] using draws_ind; simpl; intros H;
    try constructor.
  - inversion H as [|? ? Hx H']; subst. inversion H' as [|? ? Hy H'']; subst.
    split; assumption.
  - apply IH. inversion H as [|? ? _ H']; subst. now inversion H'.
Qed.

Lemma winning_game_runs :
  exists s0, mount None = Mounted s0 /\
             run winning_game s0 = Some last_free_cell.
Proof. eexists. split; [reflexivity|]. vm_compute. reflexivity. Qed.

Lemma last_free_cell_reachable : reachable last_free_cell.
Proof.
  destruct winning_game_runs as [s0 [Hm Hrun]].
  apply reachable_run with (es := winning_game) (s := s0); [|exact Hrun].
  now apply reachable_mount with (saved := None).
Qed.

Lemma grown_snake_covers_grid p :
  in_grid p -> In p (food last_free_cell :: snake last_free_cell).
Proof.
  intros Hp. apply in_grid_cells in Hp. apply on_body_iff.
  assert (Hall : forallb
            (fun q => existsb (same_cell q)
                        (food last_free_cell :: snake last_free_cell))
            grid_cells = true) by (vm_compute; reflexivity).
  rewrite forallb_forall in Hall. now apply Hall.
Qed.

(** On a board whose grown snake covers the grid the food loop cannot
    leave. *)
Lemma full_grid_hangs s first rest :
  gameState s = playing ->
  snake s = first :: rest ->
  in_grid (advance first (direction s)) ->
  ~ In (advance first (direction s)) (snake s) ->
  advance first (direction s) = food s ->
  (forall p, in_grid p -> In p (food s :: snake s)) ->
  (forall rands, Forall (fun r => 0 <= r < GRID_SIZE) rands ->
                 moveSnake rands s = None) /\
  (forall rands s', moveSnake rands s = Some s' -> ~ in_grid (food s')).
Proof.
  intros Hgs Hsn Hin Hclear Heat Hfull. split.
  - intros rands Hrange.
    apply (moveSnake_hangs rands _ _ _ Hgs Hsn Hin Hclear Heat).
    rewrite Heat. apply candidates_in_grid in Hrange.
    revert Hrange. apply Forall_impl. exact Hfull.
  - intros rands s' Hmove Hfood.
    rewrite (moveSnake_no_collision rands _ _ _ Hgs Hsn Hin Hclear) in Hmove.
    destruct (eats_iff (advance first (direction s)) (food s)) as [_ Hb].
    rewrite (Hb Heat) in Hmove.
    destruct (generateFood _ _) as [[newFood left]|] eqn:Hgen; [|discriminate].
    injection Hmove as <-. apply generateFood_free in Hgen.
    destruct Hgen as [Hfree _]. apply Hfree. rewrite Heat.
    now apply Hfull.
Qed.

(** ** Claims about the tick *)

(** C1.  A tick taken while [playing] whose new head (the current head
    moved by the current direction) lies outside the grid on either axis, or
    on any segment of the body as it is before the move (its last segment
    included), ends the game: [gameState] becomes [gameOver], and the snake,
    the food and the score are as before; the move is not applied. *)
Theorem tick_collision_is_game_over
  (rands : list Z) (s : State) (first : Position) (rest : list Position) :
  gameState s = playing ->
  snake s = first :: rest ->
  ~ in_grid (advance first (direction s))
  \/ In (advance first (direction s)) (snake s) ->
  exists s', moveSnake rands s = Some s' /\
             gameState s' = gameOver /\
             snake s' = snake s /\ food s' = food s /\ score s' = score s.
Proof.
  intros Hgs Hsn Hhit. exists (endGame s).
  split; [|repeat split].
  now apply moveSnake_collision with (first := first) (rest := rest).
Qed.

Lemma tick_collision_is_game_over_witness :
  exists s', moveSnake [] facing_left_wall = Some s' /\
             gameState s' = gameOver /\
             snake s' = snake facing_left_wall /\
             food s' = food facing_left_wall /\
             score s' = score facing_left_wall.
Proof.
  apply (tick_collision_is_game_over [] facing_left_wall
           (mkPosition 0 7) [mkPosition 1 7]).
  - reflexivity.
  - reflexivity.
  - left. unfold in_grid. simpl. lia.
Defined.

(** C2, as the code has it.  A tick taken while [playing] that does not
    end the game: when the new head is on the food and the random source
    draws a cell that is free of the grown snake, the tick returns with the
    score increased by exactly 10, the snake grown by exactly one segment (the
    new head in front, the tail kept) and the food on a drawn cell that no
    segment of the grown snake occupies, the new head included; when the new
    head is not on the food the tick returns with the last segment removed,
    the length, the score and the food unchanged. *)
Theorem tick_grows_on_food_else_moves
  (rands : list Z) (s : State) (first : Position) (rest : list Position) :
  gameState s = playing ->
  snake s = first :: rest ->
  in_grid (advance first (direction s)) ->
  ~ In (advance first (direction s)) (snake s) ->
  (advance first (direction s) = food s ->
   Exists (fun p => ~ In p (advance first (direction s) :: snake s))
          (candidates rands)) ->
  exists s', moveSnake rands s = Some s' /\
             gameState s' = playing /\
             (advance first (direction s) = food s ->
              score s' = score s + 10 /\
              snake s' = advance first (direction s) :: snake s /\
              length (snake s') = S (length (snake s)) /\
              ~ In (food s') (snake s') /\
              In (food s') (candidates rands)) /\
             (advance first (direction s) <> food s ->
              snake s' = removelast (advance first (direction s) :: snake s) /\
              length (snake s') = length (snake s) /\
              score s' = score s /\ food s' = food s).
Proof.
  intros Hgs Hsn Hin Hclear Hdraw.
  set (head := advance first (direction s)) in *.
  destruct (eats_iff head (food s)) as [Heat1 Heat2].
  destruct ((x head =? x (food s)) && (y head =? y (food s))) eqn:Heat.
  - specialize (Heat1 eq_refl).
    destruct (generateFood_returns _ _ (Hdraw Heat1)) as [newFood [left Hgen]].
    exists (setSnake (head :: snake s)
              (setFood newFood (setScore (score s + 10) s))).
    split; [|split; [exact Hgs|split]].
    + now apply moveSnake_eats with (first := first) (rest := rest)
                                    (left := left).
    + intros _. apply generateFood_free in Hgen.
      destruct Hgen as [Hfree Hdrawn].
      split; [reflexivity|]. split; [reflexivity|]. split; [reflexivity|].
      split; [exact Hfree | exact Hdrawn].
    + intros Hne. contradiction.
  - assert (Hne : head <> food s) by (intros H; apply Heat2 in H; discriminate).
    exists (setSnake (removelast (head :: snake s)) s).
    split; [|split; [exact Hgs|split]].
    + now apply moveSnake_moves with (first := first) (rest := rest).
    + intros H. contradiction.
    + intros _. repeat split.
      change (length (removelast (head :: snake s)) = length (snake s)).
      apply removelast_length.
Qed.

Lemma tick_grows_on_food_else_moves_witness :
  exists s', moveSnake [15; 14; 3; 4] about_to_eat = Some s' /\
             score s' = 10 /\ length (snake s') = 3%nat /\
             food s' = mkPosition 3 4.
Proof.
  destruct (tick_grows_on_food_else_moves [15; 14; 3; 4] about_to_eat
              (mkPosition 15 14) [mkPosition 15 13]) as [s' [Hmove [_ [Heat _]]]].
  - reflexivity.
  - reflexivity.
  - unfold in_grid, GRID_SIZE. simpl. lia.
  - apply off_body_iff. reflexivity.
  - intros _. cbn [candidates]. apply Exists_cons_tl, Exists_cons_hd.
    apply off_body_iff. reflexivity.
  - exists s'. split; [exact Hmove|].
    destruct (Heat eq_refl) as [Hscore [_ [Hlen _]]].
    split; [exact Hscore|]. split; [exact Hlen|].
    vm_compute in Hmove. injection Hmove as <-. reflexivity.
Defined.

(** C2, as the specification words it, fails on a full grid.  The state
    [last_free_cell] is reached by playing [winning_game]; the snake is on 399
    cells and heads for the food on the last free one.  The tick does not end
    the game, the new head is on the food, and the grown snake covers the grid:
    no draw within the grid lets the food loop leave, so the tick returns
    nothing, and whatever a tick returns has its food outside the grid. *)
Lemma full_grid_food_never_relocated :
  reachable last_free_cell /\
  gameState last_free_cell = playing /\
  snake last_free_cell = mkPosition 15 12 :: tl (snake last_free_cell) /\
  in_grid (advance (mkPosition 15 12) (direction last_free_cell)) /\
  ~ In (advance (mkPosition 15 12) (direction last_free_cell))
       (snake last_free_cell) /\
  advance (mkPosition 15 12) (direction last_free_cell) = food last_free_cell /\
  (forall rands, Forall (fun r => 0 <= r < GRID_SIZE) rands ->
                 moveSnake rands last_free_cell = None) /\
  (forall rands s', moveSnake rands last_free_cell = Some s' ->
                    ~ in_grid (food s')).
Proof.
  assert (Hgs : gameState last_free_cell = playing) by reflexivity.
  assert (Hsn : snake last_free_cell
                = mkPosition 15 12 :: tl (snake last_free_cell))
    by (vm_compute; reflexivity).
  assert (Hin : in_grid (advance (mkPosition 15 12)
                                 (direction last_free_cell)))
    by (unfold in_grid, GRID_SIZE; simpl; lia).
  assert (Hclear : ~ In (advance (mkPosition 15 12)
                                 (direction last_free_cell))
                        (snake last_free_cell))
    by (apply off_body_iff; vm_compute; reflexivity).
  assert (Heat : advance (mkPosition 15 12) (direction last_free_cell)
                 = food last_free_cell) by reflexivity.
  split; [exact last_free_cell_reachable|].
  split; [exact Hgs|]. split; [exact Hsn|]. split; [exact Hin|].
  split; [exact Hclear|]. split; [exact Heat|].
  exact (full_grid_hangs last_free_cell _ _ Hgs Hsn Hin Hclear Heat
           grown_snake_covers_grid).
Qed.

(** C9.  In every reachable state whose [gameState] is [playing] or
    [paused], no two segments of the snake are on the same cell, and the
    snake has at least one segment. *)
Theorem snake_never_overlaps_itself (s : State) :
  reachable s ->
  gameState s = playing \/ gameState s = paused ->
  NoDup (snake s) /\ (1 <= length (snake s))%nat.
Proof.
  intros Hr _. destruct (reachable_body_ok s Hr) as [Hnd Hne].
  split; [exact Hnd|]. destruct (snake s); [contradiction | simpl; lia].
Qed.

Lemma snake_never_overlaps_itself_witness :
  (NoDup (snake after_first_food)
   /\ (1 <= length (snake after_first_food))%nat) /\
  (NoDup (snake last_free_cell)
   /\ (1 <= length (snake last_free_cell))%nat) /\
  length (snake after_first_food) = 2%nat /\
  length (snake last_free_cell) = 399%nat.
Proof.
  split; [|split].
  - apply (snake_never_overlaps_itself after_first_food).
    + apply reachable_run with
        (es := [Click StartButton; KeyDown ArrowRight]
               ++ repeat (Tick []) 5 ++ [KeyDown ArrowDown]
               ++ repeat (Tick []) 4 ++ [Tick [3; 4]; Tick []])
        (s := fresh).
      * apply reachable_mount with (saved := None). reflexivity.
      * vm_compute. reflexivity.
    + left. reflexivity.
  - apply (snake_never_overlaps_itself last_free_cell).
    + exact last_free_cell_reachable.
    + left. reflexivity.
  - split; vm_compute; reflexivity.
Defined.

(** ** Lifecycle and input *)

(** C10.  [startGame], called in any state, sets [gameState] to [playing]
    and changes nothing else: the snake, the food, the direction, the score
    and the leaderboard (and every other cell) are as before, also when the
    state was [paused] or [gameOver]. *)
Theorem startGame_only_sets_playing (s : State) :
  gameState (startGame s) = playing /\
  snake (startGame s) = snake s /\
  food (startGame s) = food s /\
  direction (startGame s) = direction s /\
  score (startGame s) = score s /\
  highScores (startGame s) = highScores s /\
  showNameDialog (startGame s) = showNameDialog s /\
  playerName (startGame s) = playerName s /\
  newHighScore (startGame s) = newHighScore s /\
  localStorage (startGame s) = localStorage s /\
  timeouts (startGame s) = timeouts s.
Proof. repeat split. Qed.

(** C5.  The pause command, from the space key or from the pause button,
    turns [playing] into [paused] and [paused] into [playing], touching no
    other cell; in the states [waiting] and [gameOver] it changes nothing. *)
Theorem togglePause_toggles (s : State) :
  match gameState s with
  | playing =>
      handleKeyPress Space s = setGameState paused s /\
      click PauseButton s = setGameState paused s
  | paused =>
      handleKeyPress Space s = setGameState playing s /\
      click PauseButton s = setGameState playing s
  | waiting | gameOver =>
      handleKeyPress Space s = s /\ click PauseButton s = s
  end.
Proof.
  unfold handleKeyPress, click, pauseGame.
  destruct (gameState s); split; reflexivity.
Qed.

Lemma handleKeyPress_direction key s :
  gameState s = playing \/ gameState s = paused ->
  is_cardinal (direction s) = true ->
  direction (handleKeyPress key s) = spec_setDirection (direction s) key.
Proof.
  intros Hgs Hcard. unfold handleKeyPress, spec_setDirection, pauseGame.
  destruct Hgs as [-> | ->];
    destruct (direction s) as [dx dy] eqn:Hd; unfold is_cardinal in Hcard;
    simpl in Hcard;
    destruct dx as [|[| |]|[| |]]; try discriminate;
    destruct dy as [|[| |]|[| |]]; try discriminate;
    destruct key; simpl; try rewrite Hd; reflexivity.
Qed.

Lemma handleKeyPress_frame key s :
  snake (handleKeyPress key s) = snake s /\
  (gameState s = playing \/ gameState s = paused ->
   gameState (handleKeyPress key s) = playing
   \/ gameState (handleKeyPress key s) = paused).
Proof.
  unfold handleKeyPress, pauseGame.
  destruct (gameState s) eqn:Hgs, key; simpl;
    repeat match goal with
           | |- context [if ?c then _ else _] => destruct c
           end; simpl; rewrite ?Hgs; auto.
Qed.

Lemma spec_setDirection_cardinal d key :
  is_cardinal d = true -> is_cardinal (spec_setDirection d key) = true.
Proof.
  unfold spec_setDirection. destruct key; simpl; auto;
    match goal with |- context [if ?c then _ else _] => destruct c end; auto.
Qed.

Lemma presses_direction keys s :
  gameState s = playing \/ gameState s = paused ->
  is_cardinal (direction s) = true ->
  direction (presses keys s) = last_valid (direction s) keys /\
  snake (presses keys s) = snake s.
Proof.
  revert s. induction keys as [|key keys IH]; intros s Hgs Hcard.
  - split; reflexivity.
  - unfold presses, last_valid. simpl.
    destruct (handleKeyPress_frame key s) as [Hsn Hgs'].
    destruct (IH (handleKeyPress key s)) as [IHd IHs].
    + auto.
    + rewrite handleKeyPress_direction by assumption.
      now apply spec_setDirection_cardinal.
    + unfold presses, last_valid in IHd, IHs. rewrite IHd, IHs.
      rewrite handleKeyPress_direction by assumption. split; congruence.
Qed.

Lemma reversal_ignored key r s :
  requested key = Some r ->
  anti_parallel r (direction s) = true ->
  handleKeyPress key s = s.
Proof.
  unfold handleKeyPress, anti_parallel. intros Hreq Hanti.
  apply andb_true_iff in Hanti. rewrite !Z.eqb_eq in Hanti.
  destruct Hanti as [Hx Hy].
  destruct (gameState s); try reflexivity;
    destruct key; try discriminate; injection Hreq as <-; simpl in *;
    match goal with
    | |- context [?a =? 0] =>
        destruct (Z.eqb_spec a 0); [lia | reflexivity]
    end.
Qed.

Lemma moveSnake_new_head rands s first rest s' :
  snake s = first :: rest ->
  moveSnake rands s = Some s' ->
  gameState s' = playing ->
  hd_error (snake s') = Some (advance first (direction s)).
Proof.
  intros Hsn Hmove Hgs'. unfold moveSnake in Hmove.
  destruct (gameState s) eqn:Hgs;
    try (injection Hmove as <-; congruence).
  rewrite Hsn in Hmove.
  set (head := advance first (direction s)) in *.
  destruct (_ || _ || _ || _);
    [injection Hmove as <-; discriminate|].
  destruct (existsb _ _); [injection Hmove as <-; discriminate|].
  destruct (_ && _).
  - destruct (generateFood _ _) as [[newFood left]|]; [|discriminate].
    injection Hmove as <-. reflexivity.
  - injection Hmove as <-. reflexivity.
Qed.

(** C7.  A direction request that is anti-parallel to the direction in
    effect for the next tick is ignored: the state is unchanged, in
    particular heading (1,0) a request for (-1,0) changes nothing.  After any
    series of key presses between two ticks the direction in effect is that
    of the last valid request, and it is the one the next tick moves the
    head by. *)
Theorem reversal_ignored_last_valid_wins (s : State) (keys : list Key) :
  gameState s = playing \/ gameState s = paused ->
  is_cardinal (direction s) = true ->
  (forall key r, requested key = Some r ->
                 anti_parallel r (direction s) = true ->
                 handleKeyPress key s = s) /\
  (direction s = mkPosition 1 0 -> handleKeyPress ArrowLeft s = s) /\
  direction (presses keys s) = last_valid (direction s) keys /\
  (forall rands first rest s',
      snake s = first :: rest ->
      moveSnake rands (presses keys s) = Some s' ->
      gameState s' = playing ->
      hd_error (snake s')
      = Some (advance first (last_valid (direction s) keys))).
Proof.
  intros Hgs Hcard.
  destruct (presses_direction keys s Hgs Hcard) as [Hdir Hsn].
  split; [|split; [|split; [exact Hdir|]]].
  - intros key r. apply reversal_ignored.
  - intros Hd. apply reversal_ignored with (r := mkPosition (-1) 0);
      [reflexivity | now rewrite Hd].
  - intros rands first rest s' Hfirst Hmove Hgs'.
    rewrite <- Hdir.
    apply moveSnake_new_head with (rands := rands) (rest := rest);
      [congruence | assumption | assumption].
Qed.

Lemma reversal_ignored_last_valid_wins_witness :
  handleKeyPress ArrowLeft about_to_turn = about_to_turn /\
  direction (presses [ArrowLeft; ArrowUp; ArrowDown] about_to_turn)
  = mkPosition 0 (-1).
Proof.
  destruct (reversal_ignored_last_valid_wins about_to_turn
              [ArrowLeft; ArrowUp; ArrowDown])
    as [_ [Hleft [Hlast _]]].
  - left. reflexivity.
  - reflexivity.
  - split; [apply Hleft; reflexivity | exact Hlast].
Defined.

(** ** Qualifying for the leaderboard *)

Lemma nth_error_last {A} (l : list A) (d : A) :
  l <> [] -> nth_error l (length l - 1) = Some (last l d).
Proof.
  induction l as [|a l IH]; [congruence|]. intros _.
  destruct l as [|b l]; [reflexivity|].
  replace (length (a :: b :: l) - 1)%nat with (S (length (b :: l) - 1))
    by (simpl; lia).
  cbn [nth_error]. change (last (a :: b :: l) d) with (last (b :: l) d).
  apply IH. discriminate.
Qed.

Lemma last_cons_default {A} (h : A) (l : list A) :
  last (h :: l) h = last l h.
Proof. destruct l; reflexivity. Qed.

Lemma last_of_map {A B} (f : A -> B) (l : list A) (d : A) :
  last (map f l) (f d) = f (last l d).
Proof.
  induction l as [|a l IH]; [reflexivity|].
  destruct l as [|b l]; [reflexivity|]. exact IH.
Qed.

Lemma min_of_descending (z : Z) (zs : list Z) :
  Forall (fun w => w <= z) zs ->
  StronglySorted Z.ge zs ->
  fold_right Z.min z zs = last zs z.
Proof.
  induction zs as [|w ws IH]; [reflexivity|].
  intros Hle Hsorted.
  apply Forall_cons_iff in Hle. destruct Hle as [Hw Hws].
  apply StronglySorted_inv in Hsorted. destruct Hsorted as [Hs Hall].
  simpl fold_right. rewrite IH by assumption.
  destruct ws as [|v ws]; [simpl; lia|].
  change (last (w :: v :: ws) z) with (last (v :: ws) z).
  assert (Hin : In (last (v :: ws) z) (v :: ws)).
  { destruct (@exists_last _ (v :: ws)) as [l' [a ->]]; [discriminate|].
    rewrite last_last. apply in_or_app. right. now left. }
  rewrite Forall_forall in Hall. specialize (Hall _ Hin). lia.
Qed.

Lemma descending_scores hs :
  descending hs -> StronglySorted Z.ge (map HighScore.score hs).
Proof.
  unfold descending. induction 1 as [|a l Hs IH Hall]; simpl; constructor.
  - exact IH.
  - rewrite Forall_map. exact Hall.
Qed.

Lemma lowest_is_last hs r :
  descending hs ->
  nth_error hs (length hs - 1) = Some r ->
  lowest_score hs = Some (HighScore.score r).
Proof.
  intros Hdesc Hnth. destruct hs as [|h hs]; [discriminate|].
  rewrite (nth_error_last (h :: hs) h) in Hnth by discriminate.
  injection Hnth as <-.
  apply descending_scores in Hdesc. simpl in Hdesc.
  apply StronglySorted_inv in Hdesc. destruct Hdesc as [Hs Hall].
  unfold lowest_score. cbn [map]. f_equal.
  rewrite min_of_descending; [| |exact Hs].
  - rewrite last_of_map. f_equal. symmetry. apply last_cons_default.
  - revert Hall. apply Forall_impl. intros; lia.
Qed.

Lemma qualifies_spec hs c :
  0 <= c -> descending hs ->
  qualifies hs c = true <->
  0 < c /\ ((length hs < MAX_HIGH_SCORES)%nat
            \/ exists m, lowest_score hs = Some m /\ m < c).
Proof.
  intros Hc Hdesc. unfold qualifies.
  destruct (Z.eqb_spec c 0) as [->|Hnz].
  { split; [discriminate | lia]. }
  destruct (Nat.ltb_spec (length hs) MAX_HIGH_SCORES) as [Hlt|Hge].
  { split; [intros _; split; [lia | now left] | reflexivity]. }
  assert (Hne : hs <> []).
  { intros ->. unfold MAX_HIGH_SCORES in Hge. simpl in Hge. lia. }
  rewrite (nth_error_last hs (HighScore.mk [] 0 [])) by exact Hne.
  pose proof (lowest_is_last hs _ Hdesc
                (nth_error_last hs (HighScore.mk [] 0 []) Hne)) as Hlow.
  rewrite Z.ltb_lt. split.
  - intros Hgt. split; [lia|]. right. eauto.
  - intros [_ [Hlt | [m [Hm Hgt]]]]; [lia|].
    rewrite Hlow in Hm. injection Hm as <-. exact Hgt.
Qed.

(** C3.  For a candidate score that is not negative and a leaderboard in
    descending order, [checkForNewHighScore] returns [true] exactly when the
    candidate is greater than 0 and the leaderboard has fewer than 5 entries
    or the candidate is greater than its lowest score.  A score of 0 never
    qualifies, not even on an empty leaderboard, and on a leaderboard of 5
    entries a candidate equal to the lowest score does not qualify. *)
Theorem qualifies_iff (hs : list HighScore.t) (candidateScore : Z) (s : State) :
  0 <= candidateScore ->
  descending hs ->
  (fst (checkForNewHighScore hs candidateScore s) = true <->
   0 < candidateScore /\
   ((length hs < MAX_HIGH_SCORES)%nat
    \/ exists m, lowest_score hs = Some m /\ m < candidateScore)) /\
  fst (checkForNewHighScore hs 0 s) = false /\
  fst (checkForNewHighScore [] 0 s) = false /\
  (length hs = MAX_HIGH_SCORES ->
   lowest_score hs = Some candidateScore ->
   fst (checkForNewHighScore hs candidateScore s) = false).
Proof.
  intros Hc Hdesc.
  assert (Hfst : forall l c, fst (checkForNewHighScore l c s) = qualifies l c).
  { intros l c. unfold checkForNewHighScore. now destruct (qualifies l c). }
  rewrite !Hfst. split; [now apply qualifies_spec|].
  split; [reflexivity|]. split; [reflexivity|].
  intros Hlen Hlow.
  destruct (qualifies hs candidateScore) eqn:Hq; [|reflexivity].
  apply qualifies_spec in Hq; [|assumption|assumption].
  destruct Hq as [_ [Hlt | [m [Hm Hgt]]]]; [lia|].
  rewrite Hlow in Hm. injection Hm as <-. lia.
Qed.

Lemma full_board_descending : descending full_board.
Proof.
  unfold descending, full_board.
  repeat (constructor; [|repeat (constructor; [simpl; lia|]); constructor]).
  constructor.
Qed.

Lemma qualifies_iff_witness :
  fst (checkForNewHighScore full_board 100 about_to_turn) = false /\
  fst (checkForNewHighScore full_board 101 about_to_turn) = true.
Proof.
  split.
  - destruct (qualifies_iff full_board 100 about_to_turn)
      as [_ [_ [_ Htie]]].
    + lia.
    + exact full_board_descending.
    + apply Htie; reflexivity.
  - reflexivity.
Defined.

(** ** The delayed high-score check and a new game *)

(** C6, as the specification words it, fails.  After the game over the
    player resets and starts a new game; the check of the ended game is still
    pending (the dialog is closed, the new game runs with score 0), and when
    it fires it opens the name-entry dialog for the score 10 of the ended
    game. *)
Lemma stale_score_prompts_after_reset :
  mount None = Mounted fresh /\
  (exists s, run ended_game fresh = Some s /\
             gameState s = gameOver /\ score s = 10 /\
             timeouts s = [mkTimeout 10 []]) /\
  (exists s, run new_game_started fresh = Some s /\
             gameState s = playing /\ score s = 0 /\
             snake s = INITIAL_SNAKE /\
             showNameDialog s = false /\
             timeouts s = [mkTimeout 10 []]) /\
  (exists s, run (new_game_started ++ [TimeoutFires]) fresh = Some s /\
             gameState s = playing /\ score s = 0 /\
             showNameDialog s = true /\ newHighScore s = 10).
Proof.
  split; [reflexivity|].
  split; [|split]; eexists; (split; [vm_compute; reflexivity|]);
    repeat split.
Qed.

(** C6, as the code has it.  [resetGame] leaves a pending high-score check
    pending, and a following [startGame] does too.  When the check fires
    after the reset it still evaluates the score and the leaderboard captured
    at the collision: it opens the name-entry dialog for that score exactly
    when the captured score qualifies, and otherwise only leaves the queue. *)
Theorem reset_keeps_pending_check
  (s : State) (t : Timeout) (later : list Timeout) :
  timeouts s = t :: later ->
  timeouts (resetGame s) = t :: later /\
  timeouts (startGame (resetGame s)) = t :: later /\
  fireTimeout (resetGame s) =
  (if qualifies (seenHighScores t) (finalScore t)
   then setShowNameDialog true
          (setNewHighScore (finalScore t) (setTimeouts later (resetGame s)))
   else setTimeouts later (resetGame s)).
Proof.
  intros Hq. split; [exact Hq|]. split; [exact Hq|].
  unfold fireTimeout, checkForNewHighScore.
  change (timeouts (resetGame s)) with (timeouts s). rewrite Hq.
  now destruct (qualifies _ _).
Qed.

Lemma reset_keeps_pending_check_witness :
  timeouts (resetGame just_ended) = [mkTimeout 10 []] /\
  showNameDialog (fireTimeout (resetGame just_ended)) = true /\
  newHighScore (fireTimeout (resetGame just_ended)) = 10.
Proof.
  destruct (reset_keeps_pending_check just_ended (mkTimeout 10 []) [])
    as [Hkept [_ Hfire]].
  - reflexivity.
  - split; [exact Hkept|]. rewrite Hfire. split; reflexivity.
Defined.

(** ** Sorting the leaderboard *)

Section Sorting.

Context {A : Type} (cmp : A -> A -> Z).

Lemma insert_perm a l : Permutation (insert cmp a l) (a :: l).
Proof.
  induction l as [|b l IH]; simpl; [reflexivity|].
  destruct (cmp a b <=? 0); [reflexivity|].
  rewrite IH. apply perm_swap.
Qed.

Lemma sort_perm l : Permutation (sort cmp l) l.
Proof.
  induction l as [|a l IH]; simpl; [reflexivity|].
  unfold sort in IH. rewrite insert_perm. now constructor.
Qed.

End Sorting.

Lemma insert_descending a l :
  descending l -> descending (insert byScoreDescending a l).
Proof.
  unfold descending. induction 1 as [|b l Hs IH Hall]; simpl.
  - repeat constructor.
  - unfold byScoreDescending at 1.
    destruct (Z.leb_spec (HighScore.score b - HighScore.score a) 0) as [Hle|Hgt].
    + constructor; [now constructor|].
      constructor; [lia|].
      revert Hall. apply Forall_impl. intros; lia.
    + constructor; [exact IH|].
      apply (Permutation_Forall
               (Permutation_sym (insert_perm byScoreDescending a l))).
      constructor; [lia | exact Hall].
Qed.

Lemma sort_descending l : descending (sort byScoreDescending l).
Proof.
  induction l as [|a l IH]; simpl.
  - constructor.
  - now apply insert_descending.
Qed.

Lemma firstn_descending n l : descending l -> descending (firstn n l).
Proof.
  unfold descending. intros H. revert n.
  induction H as [|a l Hs IH Hall]; intros [|n]; simpl; try constructor.
  - apply IH.
  - rewrite Forall_forall in *. intros b Hb. apply Hall.
    rewrite <- (firstn_skipn n l). apply in_or_app. now left.
Qed.

(** ** Reading back what [saveHighScores] wrote *)

Module JSONFacts.

Import JSON.
Local Open Scope N_scope.

Ltac decide_tests :=
  repeat match goal with
    | |- context [N.eqb ?a ?b] => destruct (N.eqb_spec a b); try lia
    | |- context [N.leb ?a ?b] => destruct (N.leb_spec a b); try lia
    | |- context [N.ltb ?a ?b] => destruct (N.ltb_spec a b); try lia
    end; cbn [andb orb].

Lemma hex_digit_hex_char h : h < 16 -> hex_digit (hex_char h) = Some h.
Proof.
  intros Hh. unfold hex_digit, hex_char, is_digit.
  destruct (N.ltb_spec h 10); decide_tests; f_equal; lia.
Qed.

Lemma hex4_u_escape c :
  c < 65536 ->
  hex4 (hex_char (c / 4096 mod 16)) (hex_char (c / 256 mod 16))
       (hex_char (c / 16 mod 16)) (hex_char (c mod 16)) = Some c.
Proof.
  intros Hc. unfold hex4.
  rewrite !hex_digit_hex_char by (apply N.mod_lt; discriminate).
  f_equal. zify. Z.to_euclidean_division_equations. lia.
Qed.

Lemma parse_chars_u_escape c rest :
  c < 65536 ->
  parse_chars (u_escape c ++ rest) = cons_result c (parse_chars rest).
Proof.
  intros Hc. unfold u_escape. cbn [app].
  change (parse_chars (92 :: 117 :: ?a :: ?b :: ?c' :: ?d :: rest))
    with (match hex4 a b c' d with
          | Some u => cons_result u (parse_chars rest)
          | None => None
          end).
  now rewrite hex4_u_escape.
Qed.

Lemma parse_chars_plain c rest :
  32 <= c -> c <> 34 -> c <> 92 ->
  parse_chars (c :: rest) = cons_result c (parse_chars rest).
Proof.
  intros H1 H2 H3. cbn [parse_chars]. decide_tests. reflexivity.
Qed.

Lemma parse_quote_chars_bounded n :
  forall s rest, (length s <= n)%nat ->
  parse_chars (quote_chars s ++ 34 :: rest) = Some (s, rest).
Proof.
  induction n as [|n IH]; intros s rest Hlen.
  { destruct s; [reflexivity | simpl in Hlen; lia]. }
  destruct s as [|c r]; [reflexivity|].
  assert (Hr : forall rest', parse_chars (quote_chars r ++ 34 :: rest')
                             = Some (r, rest'))
    by (intros; apply IH; simpl in Hlen; lia).
  cbn [quote_chars].
  destruct (N.eqb_spec c 8) as [->|H8];
    [cbn [app]; change (parse_chars (92 :: 98 :: ?t)) with (cons_result 8 (parse_chars t)); now rewrite Hr|].
  destruct (N.eqb_spec c 9) as [->|H9];
    [cbn [app]; change (parse_chars (92 :: 116 :: ?t)) with (cons_result 9 (parse_chars t)); now rewrite Hr|].
  destruct (N.eqb_spec c 10) as [->|H10];
    [cbn [app]; change (parse_chars (92 :: 110 :: ?t)) with (cons_result 10 (parse_chars t)); now rewrite Hr|].
  destruct (N.eqb_spec c 12) as [->|H12];
    [cbn [app]; change (parse_chars (92 :: 102 :: ?t)) with (cons_result 12 (parse_chars t)); now rewrite Hr|].
  destruct (N.eqb_spec c 13) as [->|H13];
    [cbn [app]; change (parse_chars (92 :: 114 :: ?t)) with (cons_result 13 (parse_chars t)); now rewrite Hr|].
  destruct (N.eqb_spec c 34) as [->|H34];
    [cbn [app]; change (parse_chars (92 :: 34 :: ?t)) with (cons_result 34 (parse_chars t)); now rewrite Hr|].
  destruct (N.eqb_spec c 92) as [->|H92];
    [cbn [app]; change (parse_chars (92 :: 92 :: ?t)) with (cons_result 92 (parse_chars t)); now rewrite Hr|].
  destruct (N.ltb_spec c 32) as [Hctl|Hprint].
  { rewrite <- app_assoc, parse_chars_u_escape by lia. now rewrite Hr. }
  unfold is_high_surrogate, is_low_surrogate.
  destruct ((55296 <=? c) && (c <=? 56319)) eqn:Hhigh.
  - apply andb_true_iff in Hhigh. rewrite !N.leb_le in Hhigh.
    destruct r as [|d r'].
    + rewrite parse_chars_u_escape by lia. reflexivity.
    + destruct ((56320 <=? d) && (d <=? 57343)) eqn:Hlow.
      * apply andb_true_iff in Hlow. rewrite !N.leb_le in Hlow.
        cbn [app]. rewrite !parse_chars_plain by lia.
        rewrite IH by (simpl in Hlen; lia). reflexivity.
      * rewrite <- app_assoc, parse_chars_u_escape by lia. now rewrite Hr.
  - destruct ((56320 <=? c) && (c <=? 57343)) eqn:Hlow.
    + apply andb_true_iff in Hlow. rewrite !N.leb_le in Hlow.
      rewrite <- app_assoc, parse_chars_u_escape by lia. now rewrite Hr.
    + cbn [app]. rewrite parse_chars_plain by lia. now rewrite Hr.
Qed.

Lemma parse_quote_chars s rest :
  parse_chars (quote_chars s ++ 34 :: rest) = Some (s, rest).
Proof. now apply parse_quote_chars_bounded with (n := length s). Qed.


Lemma digits_value_snoc ds d :
  digits_value (ds ++ [d]) = 10 * digits_value ds + (d - 48).
Proof. unfold digits_value. now rewrite fold_left_app. Qed.

Lemma is_digit_mod n : is_digit (48 + n mod 10) = true.
Proof.
  assert (H : n mod 10 < 10) by (apply N.mod_lt; discriminate).
  revert H. generalize (n mod 10). intros m Hm.
  unfold is_digit. decide_tests; try reflexivity.
Qed.

Lemma digits_of_spec f :
  forall n acc, n < 10 ^ N.of_nat (S f) ->
  exists ds, digits_of (S f) n acc = ds ++ acc /\
             numeral ds /\ digits_value ds = n.
Proof.
  induction f as [|f IH]; intros n acc Hn; cbn [digits_of].
  - replace (n / 10) with 0
      by (symmetry; apply N.div_small; exact Hn).
    cbn [N.eqb]. exists [48 + n mod 10]. split; [reflexivity|].
    rewrite N.mod_small by exact Hn.
    change (10 ^ N.of_nat 1) with 10 in Hn.
    split; [split; [|split]|].
    + unfold is_digit. cbn [forallb]. decide_tests; try reflexivity.
    + discriminate.
    + cbn [hd]. intros H. f_equal. exact H.
    + unfold digits_value. cbn [fold_left]. lia.
  - destruct (N.eqb_spec (n / 10) 0) as [Hz|Hnz].
    + assert (Hsmall : n < 10).
      { zify. Z.to_euclidean_division_equations. lia. }
      exists [48 + n mod 10]. split; [reflexivity|].
      rewrite N.mod_small by exact Hsmall.
      split; [split; [|split]|].
      * unfold is_digit. cbn [forallb]. decide_tests; try reflexivity.
      * discriminate.
      * cbn [hd]. intros H. f_equal. exact H.
      * unfold digits_value. cbn [fold_left]. lia.
    + destruct (IH (n / 10) ((48 + n mod 10) :: acc))
        as [ds [Heq [[Hdig [Hne Hlead]] Hval]]].
      { rewrite Nat2N.inj_succ, N.pow_succ_r' in Hn.
        apply N.Div0.div_lt_upper_bound. exact Hn. }
      cbn [digits_of] in Heq.
      exists (ds ++ [48 + n mod 10]). split; [|split; [split; [|split]|]].
      * rewrite <- app_assoc. exact Heq.
      * rewrite forallb_app, Hdig. cbn [forallb andb].
        now rewrite is_digit_mod.
      * destruct ds; discriminate.
      * destruct ds as [|d ds]; [congruence|]. cbn [hd app].
        intros H. specialize (Hlead H). injection Hlead as -> ->.
        unfold digits_value in Hval. cbn in Hval. congruence.
      * rewrite digits_value_snoc, Hval.
        zify. Z.to_euclidean_division_equations. lia.
Qed.

Lemma decimal_spec n : numeral (decimal n) /\ digits_value (decimal n) = n.
Proof.
  unfold decimal.
  destruct (digits_of_spec (N.to_nat (N.log2 n)) n []) as [ds [Heq H]].
  - rewrite Nat2N.inj_succ, N2Nat.id.
    destruct n as [|p]; [reflexivity|].
    apply N.lt_le_trans with (2 ^ N.succ (N.log2 (N.pos p))).
    + apply N.log2_spec. reflexivity.
    + apply N.pow_le_mono_l. lia.
  - rewrite app_nil_r in Heq. now rewrite Heq.
Qed.

Lemma take_digits_numeral ds c rest :
  forallb is_digit ds = true -> is_digit c = false ->
  take_digits (ds ++ c :: rest) = (ds, c :: rest).
Proof.
  intros Hds Hc. induction ds as [|d ds IH]; cbn [app take_digits].
  - now rewrite Hc.
  - cbn [forallb] in Hds. apply andb_true_iff in Hds. destruct Hds as [Hd Hds].
    now rewrite Hd, IH.
Qed.


Lemma parse_number_numeral (neg : bool) ds c rest :
  numeral ds -> ends_number c ->
  parse_number ((if neg then [45] else []) ++ ds ++ c :: rest)
  = Some (JNumber (if neg then (- Z.of_N (digits_value ds))%Z
                   else Z.of_N (digits_value ds)) 0, c :: rest).
Proof.
  intros [Hdig [Hne Hlead]] [Hc [H46 [H101 H69]]].
  destruct ds as [|d ds]; [congruence|].
  cbn [forallb] in Hdig. apply andb_true_iff in Hdig.
  destruct Hdig as [Hd Hds].
  assert (Hd45 : (d =? 45) = false).
  { unfold is_digit in Hd. apply andb_true_iff in Hd.
    rewrite !N.leb_le in Hd. apply N.eqb_neq. lia. }
  assert (Hint :
    (if d =? 48 then Some ([d], ds ++ c :: rest)
     else if is_digit d
          then let (ds', r2) := take_digits (ds ++ c :: rest) in
               Some (d :: ds', r2)
          else None) = Some (d :: ds, c :: rest)).
  { destruct (N.eqb_spec d 48) as [->|Hnz].
    - specialize (Hlead eq_refl). injection Hlead as ->. reflexivity.
    - rewrite Hd, take_digits_numeral by assumption. reflexivity. }
  assert (Hfrac : parse_frac (c :: rest) = Some ([], c :: rest)).
  { unfold parse_frac. now destruct (N.eqb_spec c 46). }
  assert (Hexp : parse_exp (c :: rest) = Some (0%Z, c :: rest)).
  { unfold parse_exp.
    destruct (N.eqb_spec c 101); [contradiction|].
    now destruct (N.eqb_spec c 69). }
  unfold parse_number. destruct neg; cbn [app].
  - cbn [N.eqb Pos.eqb]. rewrite Hint, Hfrac, Hexp, app_nil_r. reflexivity.
  - rewrite Hd45, Hint, Hfrac, Hexp, app_nil_r. reflexivity.
Qed.

Lemma parse_number_number z c rest :
  ends_number c ->
  parse_number (number z ++ c :: rest) = Some (JNumber z 0, c :: rest).
Proof.
  intros Hc.
  assert (Hpos : forall n, parse_number (decimal n ++ c :: rest)
                           = Some (JNumber (Z.of_N n) 0, c :: rest)).
  { intros n. destruct (decimal_spec n) as [Hnum Hval].
    pose proof (parse_number_numeral false _ c rest Hnum Hc) as H.
    cbn [app] in H. now rewrite H, Hval. }
  destruct z as [|p|p]; unfold number.
  - apply Hpos.
  - rewrite Hpos. reflexivity.
  - destruct (decimal_spec (N.pos p)) as [Hnum Hval].
    pose proof (parse_number_numeral true _ c rest Hnum Hc) as H.
    cbn [app] in *. now rewrite H, Hval.
Qed.

Lemma number_first z :
  exists d ds, number z = d :: ds /\ (d = 45 \/ is_digit d = true).
Proof.
  destruct z as [|p|p]; unfold number.
  - destruct (decimal_spec (Z.to_N 0)) as [[Hdig [Hne _]] _].
    destruct (decimal _) as [|d ds]; [congruence|]. exists d, ds.
    cbn [forallb] in Hdig. apply andb_true_iff in Hdig. intuition.
  - destruct (decimal_spec (Z.to_N (Z.pos p))) as [[Hdig [Hne _]] _].
    destruct (decimal _) as [|d ds]; [congruence|]. exists d, ds.
    cbn [forallb] in Hdig. apply andb_true_iff in Hdig. intuition.
  - eauto.
Qed.

Lemma parse_value_number f z c rest :
  (1 <= f)%nat -> ends_number c ->
  parse_value f (number z ++ c :: rest) = Some (JNumber z 0, c :: rest).
Proof.
  intros Hf Hc. destruct f as [|f]; [lia|].
  rewrite <- (parse_number_number z c rest Hc).
  destruct (number_first z) as [d [ds [-> Hd]]].
  cbn [app parse_value skip_ws].
  assert (Hws : is_ws d = false).
  { unfold is_ws, is_digit in *. destruct Hd as [->|Hd]; [reflexivity|].
    apply andb_true_iff in Hd. rewrite !N.leb_le in Hd.
    decide_tests; try reflexivity. }
  rewrite Hws.
  unfold is_digit in Hd.
  assert (Hr : 45 <= d <= 57).
  { destruct Hd as [->|Hd]; [lia|]. apply andb_true_iff in Hd.
    rewrite !N.leb_le in Hd. lia. }
  decide_tests; try reflexivity.
Qed.

Lemma parse_value_string f s rest :
  (1 <= f)%nat ->
  parse_value f (34 :: quote_chars s ++ 34 :: rest) = Some (JString s, rest).
Proof.
  intros Hf. destruct f as [|f]; [lia|].
  cbn [parse_value skip_ws is_ws N.eqb Pos.eqb orb].
  now rewrite parse_quote_chars.
Qed.


Lemma stringify_HighScore_chars h rest :
  stringify_HighScore h ++ rest
  = 123 :: 34 :: quote_chars (str "name") ++ 34 :: 58
    :: 34 :: quote_chars (HighScore.name h) ++ 34 :: 44
    :: 34 :: quote_chars (str "score") ++ 34 :: 58
    :: number (HighScore.score h) ++ 44
    :: 34 :: quote_chars (str "date") ++ 34 :: 58
    :: 34 :: quote_chars (HighScore.date h) ++ 34 :: 125 :: rest.
Proof.
  unfold stringify_HighScore, quote.
  repeat (rewrite <- app_assoc || rewrite <- app_comm_cons).
  reflexivity.
Qed.

Lemma parse_key f k rest :
  parse_members (S f) (34 :: quote_chars k ++ 34 :: 58 :: rest)
  = match parse_value f rest with
    | None => None
    | Some (v, r3) =>
        match skip_ws r3 with
        | d :: r4 =>
            if d =? 44 then cons_result (k, v) (parse_members f r4)
            else if d =? 125 then Some ([(k, v)], r4)
            else None
        | [] => None
        end
    end.
Proof.
  cbn [parse_members skip_ws is_ws N.eqb Pos.eqb orb].
  rewrite parse_quote_chars.
  cbn [skip_ws is_ws N.eqb Pos.eqb orb]. reflexivity.
Qed.

Lemma comma_ends_number : ends_number 44.
Proof. repeat split; discriminate. Qed.

Lemma parse_value_HighScore f h rest :
  (5 <= f)%nat ->
  parse_value f (stringify_HighScore h ++ rest) = Some (value_of h, rest).
Proof.
  intros Hf. do 5 (destruct f as [|f]; [lia|]).
  rewrite stringify_HighScore_chars.
  cbn [parse_value skip_ws is_ws N.eqb Pos.eqb orb].
  rewrite parse_key, parse_value_string by lia.
  cbn [skip_ws is_ws N.eqb Pos.eqb orb].
  rewrite parse_key, parse_value_number by (lia || exact comma_ends_number).
  cbn [skip_ws is_ws N.eqb Pos.eqb orb].
  rewrite parse_key, parse_value_string by lia.
  cbn [skip_ws is_ws N.eqb Pos.eqb orb cons_result]. reflexivity.
Qed.

Lemma stringify_HighScore_length h : (1 <= length (stringify_HighScore h))%nat.
Proof.
  rewrite <- (app_nil_r (stringify_HighScore h)), stringify_HighScore_chars.
  cbn [length]. lia.
Qed.

Lemma stringify_elements_length l :
  (length l <= length (stringify_elements l))%nat.
Proof.
  induction l as [|h l IH]; [reflexivity|].
  pose proof (stringify_HighScore_length h).
  destruct l as [|k l]; cbn [stringify_elements length] in *; [lia|].
  rewrite !length_app. cbn [length str] in *. lia.
Qed.

Lemma parse_elements_stringify l :
  l <> [] ->
  forall f rest, (length l + 5 <= f)%nat ->
  parse_elements f (stringify_elements l ++ 93 :: rest)
  = Some (map value_of l, rest).
Proof.
  induction l as [|h l IH]; [congruence|]. intros _ f rest Hf.
  destruct f as [|f]; [lia|]. cbn [length] in Hf.
  destruct l as [|k l].
  - cbn [stringify_elements parse_elements].
    rewrite parse_value_HighScore by lia. reflexivity.
  - change (stringify_elements (h :: k :: l))
      with (stringify_HighScore h ++ 44 :: stringify_elements (k :: l)).
    rewrite <- app_assoc, <- app_comm_cons. cbn [parse_elements].
    rewrite parse_value_HighScore by (cbn [length] in Hf; lia).
    cbn [skip_ws is_ws N.eqb Pos.eqb orb].
    rewrite IH by (try discriminate; cbn [length] in *; lia).
    reflexivity.
Qed.

Lemma parse_stringify l : parse (stringify l) = Some (JArray (map value_of l)).
Proof.
  destruct l as [|h l]; [reflexivity|].
  unfold parse.
  set (fuel := (2 * length (stringify (h :: l)) + 2)%nat).
  assert (Hfuel : (length (h :: l) + 6 <= fuel)%nat).
  { pose proof (stringify_elements_length (h :: l)) as Hlen.
    unfold fuel, stringify. change (str "[") with [91].
    change (str "]") with [93]. rewrite !length_app. cbn [length] in *. lia. }
  clearbody fuel. destruct fuel as [|f]; [lia|].
  change (stringify (h :: l)) with (91 :: stringify_elements (h :: l) ++ [93]).
  assert (Hfirst : exists t, stringify_elements (h :: l) ++ [93] = 123 :: t).
  { destruct l as [|k l]; cbn [stringify_elements].
    - rewrite stringify_HighScore_chars. eauto.
    - rewrite <- app_assoc, stringify_HighScore_chars. eauto. }
  destruct Hfirst as [t Ht].
  cbn [parse_value skip_ws is_ws N.eqb Pos.eqb orb].
  rewrite Ht. cbn [skip_ws is_ws N.eqb Pos.eqb orb]. rewrite <- Ht.
  rewrite parse_elements_stringify by (try discriminate; lia).
  reflexivity.
Qed.

Lemma as_HighScore_value_of h : as_HighScore (value_of h) = Some h.
Proof.
  destruct h as [n sc d]. unfold value_of, as_HighScore. cbn.
  now rewrite Z.mul_1_r.
Qed.

Lemma as_HighScores_values l : as_HighScores (JArray (map value_of l)) = Some l.
Proof.
  cbn [as_HighScores]. induction l as [|h l IH]; [reflexivity|].
  cbn [map as_all]. now rewrite as_HighScore_value_of, IH.
Qed.

(** *** The fuel of the parser *)

Lemma skip_ws_length cs : (length (skip_ws cs) <= length cs)%nat.
Proof.
  induction cs as [|c r IH]; cbn [skip_ws length]; [lia|].
  destruct (is_ws c); cbn [length]; lia.
Qed.

Lemma skip_ws_cons cs c r :
  skip_ws cs = c :: r -> (S (length r) <= length cs)%nat.
Proof.
  intros H. pose proof (skip_ws_length cs) as Hl. rewrite H in Hl. exact Hl.
Qed.

Lemma cons_result_shrinks {A} (a : A) (res : option (list A * list N))
  (l : list A) (r : list N) (n : nat) :
  cons_result a res = Some (l, r) ->
  (forall l', res = Some (l', r) -> (length r <= n)%nat) ->
  (length r <= n)%nat.
Proof.
  destruct res as [[l' r']|]; [|discriminate].
  intros [= <- <-] H. now apply (H l').
Qed.

Lemma parse_chars_shrinks : shrinks parse_chars.
Proof.
  intros cs. induction cs as [cs IH] using
    (induction_ltof1 _ (@length N)). unfold ltof in IH.
  intros s r. destruct cs as [|c cs']; [discriminate|]. cbn [parse_chars].
  destruct (c =? 34); [intros [= <- <-]; cbn [length]; lia|].
  destruct (c =? 92).
  - destruct cs' as [|e r1]; [discriminate|].
    destruct (e =? 117).
    + destruct r1 as [|h1 [|h2 [|h3 [|h4 r2]]]]; try discriminate.
      destruct (hex4 h1 h2 h3 h4); [|discriminate].
      intros H. apply cons_result_shrinks with (n := length r2) in H.
      * cbn [length]. lia.
      * intros l' H'. apply IH in H'; [exact H' | cbn [length]; lia].
    + destruct (unescape e); [|discriminate].
      intros H. apply cons_result_shrinks with (n := length r1) in H.
      * cbn [length]. lia.
      * intros l' H'. apply IH in H'; [exact H' | cbn [length]; lia].
  - destruct (c <? 32); [discriminate|].
    intros H. apply cons_result_shrinks with (n := length cs') in H.
    + cbn [length]. lia.
    + intros l' H'. apply IH in H'; [exact H' | cbn [length]; lia].
Qed.

Lemma take_digits_shrinks cs ds r :
  take_digits cs = (ds, r) -> (length r <= length cs)%nat.
Proof.
  revert ds r. induction cs as [|c cs IH]; cbn [take_digits]; intros ds r.
  - intros [= <- <-]. reflexivity.
  - destruct (is_digit c).
    + destruct (take_digits cs) as [ds' r'] eqn:Htd. intros [= <- <-].
      specialize (IH _ _ eq_refl). cbn [length]. lia.
    + intros [= <- <-]. reflexivity.
Qed.

Lemma parse_frac_shrinks : shrinks parse_frac.
Proof.
  intros cs fs r. unfold parse_frac. destruct cs as [|c cs].
  - intros [= <- <-]. reflexivity.
  - destruct (c =? 46).
    + destruct (take_digits cs) as [[|d ds] r'] eqn:Htd; [discriminate|].
      intros [= <- <-]. apply take_digits_shrinks in Htd. cbn [length]. lia.
    + intros [= <- <-]. reflexivity.
Qed.

Lemma parse_exp_shrinks : shrinks parse_exp.
Proof.
  intros cs ex r. unfold parse_exp. destruct cs as [|c cs].
  - intros [= <- <-]. reflexivity.
  - destruct ((c =? 101) || (c =? 69)).
    + destruct cs as [|sg r'].
      * cbn [take_digits]. discriminate.
      * destruct (sg =? 45).
        { destruct (take_digits r') as [[|d ds] r2] eqn:Htd; [discriminate|].
          intros [= <- <-]. apply take_digits_shrinks in Htd.
          cbn [length]. lia. }
        destruct (sg =? 43).
        { destruct (take_digits r') as [[|d ds] r2] eqn:Htd; [discriminate|].
          intros [= <- <-]. apply take_digits_shrinks in Htd.
          cbn [length]. lia. }
        destruct (take_digits (sg :: r')) as [[|d ds] r2] eqn:Htd;
          [discriminate|].
        intros [= <- <-]. apply take_digits_shrinks in Htd.
        cbn [length] in *. lia.
    + intros [= <- <-]. reflexivity.
Qed.

Lemma parse_number_shrinks : shrinks parse_number.
Proof.
  intros cs v r. unfold parse_number.
  assert (Hgen : forall neg t,
    (length t <= length cs)%nat ->
    match t with
    | [] => None
    | c :: r1 =>
        match
          (if c =? 48 then Some ([c], r1)
           else if is_digit c
                then let (ds, r2) := take_digits r1 in Some (c :: ds, r2)
                else None)
        with
        | None => None
        | Some (ds, r2) =>
            match parse_frac r2 with
            | None => None
            | Some (fs, r3) =>
                match parse_exp r3 with
                | None => None
                | Some (ex, r4) =>
                    let m := Z.of_N (digits_value (ds ++ fs)) in
                    Some (JNumber (if neg : bool then (- m)%Z else m)
                            (ex - Z.of_nat (length fs))%Z, r4)
                end
            end
        end
    end = Some (v, r) -> (length r <= length cs)%nat).
  { intros neg [|c r1] Ht; [discriminate|].
    assert (Hint : forall ds r2,
      (if c =? 48 then Some ([c], r1)
       else if is_digit c
            then let (ds, r2) := take_digits r1 in Some (c :: ds, r2)
            else None) = Some (ds, r2) -> (length r2 <= length r1)%nat).
    { intros ds r2. destruct (c =? 48); [intros [= <- <-]; reflexivity|].
      destruct (is_digit c); [|discriminate].
      destruct (take_digits r1) as [ds' r'] eqn:Htd. intros [= <- <-].
      now apply take_digits_shrinks in Htd. }
    destruct (if c =? 48 then _ else _) as [[ds r2]|]; [|discriminate].
    specialize (Hint _ _ eq_refl).
    destruct (parse_frac r2) as [[fs r3]|] eqn:Hf; [|discriminate].
    apply parse_frac_shrinks in Hf.
    destruct (parse_exp r3) as [[ex r4]|] eqn:He; [|discriminate].
    apply parse_exp_shrinks in He.
    intros [= <- <-]. cbn [length] in Ht. lia. }
  destruct cs as [|c cs']; [discriminate|].
  destruct (c =? 45); intros H.
  - exact (Hgen true cs' ltac:(cbn [length]; lia) H).
  - exact (Hgen false (c :: cs') ltac:(reflexivity) H).
Qed.

Lemma expect_shrinks lit cs r :
  expect lit cs = Some r -> (length r <= length cs)%nat.
Proof.
  revert cs. induction lit as [|a lit IH]; intros cs; cbn [expect].
  - intros [= <-]. reflexivity.
  - destruct cs as [|c cs]; [discriminate|].
    destruct (a =? c); [|discriminate].
    intros H. apply IH in H. cbn [length]. lia.
Qed.

Section OneMoreLevel.

Variable f : nat.
Hypothesis value_shrinks : shrinks (parse_value f).
Hypothesis elements_shrinks : shrinks (parse_elements f).
Hypothesis members_shrinks : shrinks (parse_members f).

Lemma parse_value_S_shrinks : shrinks (parse_value (S f)).
Proof.
  intros cs v r. cbn [parse_value].
  destruct (skip_ws cs) as [|c t] eqn:Hskip; [discriminate|].
  apply skip_ws_cons in Hskip.
  destruct (c =? 91).
  { destruct (skip_ws t) as [|d t'] eqn:Hskip'; [discriminate|].
    apply skip_ws_cons in Hskip'.
    destruct (d =? 93); [intros [= <- <-]; lia|].
    destruct (parse_elements f (d :: t')) as [[vs r2]|] eqn:He; [|discriminate].
    apply elements_shrinks in He. intros [= <- <-]. cbn [length] in He. lia. }
  destruct (c =? 123).
  { destruct (skip_ws t) as [|d t'] eqn:Hskip'; [discriminate|].
    apply skip_ws_cons in Hskip'.
    destruct (d =? 125); [intros [= <- <-]; lia|].
    destruct (parse_members f (d :: t')) as [[ms r2]|] eqn:Hm; [|discriminate].
    apply members_shrinks in Hm. intros [= <- <-]. cbn [length] in Hm. lia. }
  destruct (c =? 34).
  { destruct (parse_chars t) as [[s r']|] eqn:Hc; [|discriminate].
    apply parse_chars_shrinks in Hc. intros [= <- <-]. lia. }
  destruct (c =? 110).
  { destruct (expect _ t) as [r'|] eqn:Hx; [|discriminate].
    apply expect_shrinks in Hx. intros [= <- <-]. lia. }
  destruct (c =? 116).
  { destruct (expect _ t) as [r'|] eqn:Hx; [|discriminate].
    apply expect_shrinks in Hx. intros [= <- <-]. lia. }
  destruct (c =? 102).
  { destruct (expect _ t) as [r'|] eqn:Hx; [|discriminate].
    apply expect_shrinks in Hx. intros [= <- <-]. lia. }
  intros H. apply parse_number_shrinks in H. cbn [length] in H. lia.
Qed.

Lemma parse_elements_S_shrinks : shrinks (parse_elements (S f)).
Proof.
  intros cs vs r. cbn [parse_elements].
  destruct (parse_value f cs) as [[v t]|] eqn:Hv; [|discriminate].
  apply value_shrinks in Hv.
  destruct (skip_ws t) as [|c t'] eqn:Hskip; [discriminate|].
  apply skip_ws_cons in Hskip.
  destruct (c =? 44).
  { intros H. apply cons_result_shrinks with (n := length t') in H; [lia|].
    intros l'. apply elements_shrinks. }
  destruct (c =? 93); [|discriminate].
  intros [= <- <-]. lia.
Qed.

Lemma parse_members_S_shrinks : shrinks (parse_members (S f)).
Proof.
  intros cs ms r. cbn [parse_members].
  destruct (skip_ws cs) as [|q r0] eqn:Hskip; [discriminate|].
  apply skip_ws_cons in Hskip.
  destruct (q =? 34); [|discriminate].
  destruct (parse_chars r0) as [[k r1]|] eqn:Hk; [|discriminate].
  apply parse_chars_shrinks in Hk.
  destruct (skip_ws r1) as [|c r2] eqn:Hskip1; [discriminate|].
  apply skip_ws_cons in Hskip1.
  destruct (c =? 58); [|discriminate].
  destruct (parse_value f r2) as [[v r3]|] eqn:Hv; [|discriminate].
  apply value_shrinks in Hv.
  destruct (skip_ws r3) as [|d r4] eqn:Hskip3; [discriminate|].
  apply skip_ws_cons in Hskip3.
  destruct (d =? 44).
  { intros H. apply cons_result_shrinks with (n := length r4) in H; [lia|].
    intros l'. apply members_shrinks. }
  destruct (d =? 125); [|discriminate].
  intros [= <- <-]. lia.
Qed.

End OneMoreLevel.

Lemma parsers_shrink f :
  shrinks (parse_value f) /\ shrinks (parse_elements f)
  /\ shrinks (parse_members f).
Proof.
  induction f as [|f [IHv [IHe IHm]]].
  - repeat split; intros cs a r; discriminate.
  - split; [|split].
    + now apply parse_value_S_shrinks.
    + now apply parse_elements_S_shrinks.
    + now apply parse_members_S_shrinks.
Qed.

(** With the fuel that the length of the text calls for, more fuel changes
    nothing. *)
Section Fuel.

Variables f f' : nat.
Hypothesis value_stable :
  forall cs, (2 * length cs + 1 <= f)%nat -> parse_value f cs = parse_value f' cs.
Hypothesis elements_stable :
  forall cs, (2 * length cs + 2 <= f)%nat ->
             parse_elements f cs = parse_elements f' cs.
Hypothesis members_stable :
  forall cs, (2 * length cs + 2 <= f)%nat ->
             parse_members f cs = parse_members f' cs.

Lemma parse_value_S_stable cs :
  (2 * length cs + 1 <= S f)%nat ->
  parse_value (S f) cs = parse_value (S f') cs.
Proof.
  intros Hf. cbn [parse_value].
  destruct (skip_ws cs) as [|c t] eqn:Hskip; [reflexivity|].
  apply skip_ws_cons in Hskip.
  destruct (c =? 91).
  { destruct (skip_ws t) as [|d t'] eqn:Hskip'; [reflexivity|].
    apply skip_ws_cons in Hskip'.
    destruct (d =? 93); [reflexivity|].
    rewrite elements_stable by (cbn [length]; lia). reflexivity. }
  destruct (c =? 123); [|reflexivity].
  destruct (skip_ws t) as [|d t'] eqn:Hskip'; [reflexivity|].
  apply skip_ws_cons in Hskip'.
  destruct (d =? 125); [reflexivity|].
  rewrite members_stable by (cbn [length]; lia). reflexivity.
Qed.

Lemma parse_elements_S_stable cs :
  (2 * length cs + 2 <= S f)%nat ->
  parse_elements (S f) cs = parse_elements (S f') cs.
Proof.
  intros Hf. cbn [parse_elements].
  rewrite <- value_stable by lia.
  destruct (parse_value f cs) as [[v t]|] eqn:Hv; [|reflexivity].
  apply (proj1 (parsers_shrink f)) in Hv.
  destruct (skip_ws t) as [|c t'] eqn:Hskip; [reflexivity|].
  apply skip_ws_cons in Hskip.
  destruct (c =? 44); [|reflexivity].
  rewrite elements_stable by lia. reflexivity.
Qed.

Lemma parse_members_S_stable cs :
  (2 * length cs + 2 <= S f)%nat ->
  parse_members (S f) cs = parse_members (S f') cs.
Proof.
  intros Hf. cbn [parse_members].
  destruct (skip_ws cs) as [|q r0] eqn:Hskip; [reflexivity|].
  apply skip_ws_cons in Hskip.
  destruct (q =? 34); [|reflexivity].
  destruct (parse_chars r0) as [[k r1]|] eqn:Hk; [|reflexivity].
  apply parse_chars_shrinks in Hk.
  destruct (skip_ws r1) as [|c r2] eqn:Hskip1; [reflexivity|].
  apply skip_ws_cons in Hskip1.
  destruct (c =? 58); [|reflexivity].
  rewrite <- value_stable by lia.
  destruct (parse_value f r2) as [[v r3]|] eqn:Hv; [|reflexivity].
  apply (proj1 (parsers_shrink f)) in Hv.
  destruct (skip_ws r3) as [|d r4] eqn:Hskip3; [reflexivity|].
  apply skip_ws_cons in Hskip3.
  destruct (d =? 44); [|reflexivity].
  rewrite members_stable by lia. reflexivity.
Qed.

End Fuel.

Lemma parsers_stable f : forall k,
  (forall cs, (2 * length cs + 1 <= f)%nat ->
              parse_value f cs = parse_value (f + k) cs) /\
  (forall cs, (2 * length cs + 2 <= f)%nat ->
              parse_elements f cs = parse_elements (f + k) cs) /\
  (forall cs, (2 * length cs + 2 <= f)%nat ->
              parse_members f cs = parse_members (f + k) cs).
Proof.
  induction f as [|f IH]; intros k.
  - repeat split; intros cs H; lia.
  - destruct (IH k) as [IHv [IHe IHm]]. cbn [Nat.add].
    split; [|split]; intros cs H.
    + now apply parse_value_S_stable.
    + now apply parse_elements_S_stable.
    + now apply parse_members_S_stable.
Qed.

(** The fuel that [parse] supplies is enough: no amount of additional fuel
    changes what the parser makes of a text. *)
Lemma parse_fuel_enough text f :
  (2 * length text + 2 <= f)%nat ->
  parse_value f text = parse_value (2 * length text + 2) text.
Proof.
  intros Hf.
  replace f with ((2 * length text + 2) + (f - (2 * length text + 2)))%nat
    by lia.
  symmetry. apply parsers_stable. lia.
Qed.

End JSONFacts.

Lemma mount_reads_back scores saved :
  initHighScores saved
  = Returns (JSON.JArray (map JSON.value_of scores)) ->
  mount saved
  = Mounted (mkState INITIAL_SNAKE INITIAL_FOOD INITIAL_DIRECTION waiting 0
               scores false [] 0 saved []).
Proof.
  intros Hinit. unfold mount.
  now rewrite Hinit, JSONFacts.as_HighScores_values.
Qed.

Lemma initHighScores_stringify scores :
  initHighScores (Some (JSON.stringify scores))
  = Returns (JSON.JArray (map JSON.value_of scores)).
Proof.
  unfold initHighScores. rewrite JSONFacts.parse_stringify.
  now destruct (JSON.stringify scores) eqn:Htext.
Qed.

(** ** Claims about the leaderboard store *)

(** C4, as the specification words it, fails on malformed data.  A stored
    text that is not JSON, such as a leaderboard text cut short, makes
    [JSON.parse] throw a [SyntaxError] inside the state initializer; nothing
    catches it, and the component does not mount. *)
Lemma malformed_storage_is_fatal :
  JSON.parse (str "[{") = None /\
  initHighScores (Some (str "[{")) = Throws SyntaxError /\
  mount (Some (str "[{")) = Crashed SyntaxError /\
  mount (Some (removelast (JSON.stringify full_board))) = Crashed SyntaxError.
Proof. repeat split; vm_compute; reflexivity. Qed.

(** C4, as the code has it.  Loading at startup yields the empty sequence
    when nothing is stored (or the empty text is); it yields the stored record
    sequence when the stored text is one that [saveHighScores] wrote; in
    general it yields whatever [JSON.parse] makes of the stored text, and when
    that text is malformed the [SyntaxError] of [JSON.parse] escapes the
    initializer and the component does not mount. *)
Theorem load_reads_back_or_throws
  (saved : option jsstring) (scores : list HighScore.t) :
  match saved with
  | None | Some [] =>
      initHighScores saved = Returns (JSON.JArray []) /\
      exists s, mount saved = Mounted s /\ highScores s = []
  | Some text =>
      match JSON.parse text with
      | Some v => initHighScores saved = Returns v
      | None =>
          initHighScores saved = Throws SyntaxError /\
          mount saved = Crashed SyntaxError
      end
  end /\
  exists s, mount (Some (JSON.stringify scores)) = Mounted s /\
            highScores s = scores /\
            gameState s = waiting /\ snake s = INITIAL_SNAKE /\
            food s = INITIAL_FOOD /\ direction s = INITIAL_DIRECTION /\
            score s = 0.
Proof.
  split.
  - destruct saved as [[|c text]|].
    + split; [reflexivity|]. eexists. split; reflexivity.
    + unfold mount, initHighScores.
      destruct (JSON.parse (c :: text)); [reflexivity | split; reflexivity].
    + split; [reflexivity|]. eexists. split; reflexivity.
  - eexists. split.
    + apply mount_reads_back, initHighScores_stringify.
    + repeat split.
Qed.

(** C8.  A call of [savePlayerHighScore] with a name that is not blank
    leaves the leaderboard sorted by score in descending order and of length
    at most 5, whatever the order of the scores before; the leaderboard is the
    first 5 of the old entries and the new one, sorted; the storage slot then
    holds the serialization of that whole leaderboard, and reading the slot
    back yields it. *)
Theorem accept_sorts_bounds_and_persists (today : jsstring) (s : State) :
  trim (playerName s) <> [] ->
  descending (highScores (savePlayerHighScore today s)) /\
  (length (highScores (savePlayerHighScore today s)) <= MAX_HIGH_SCORES)%nat /\
  (exists dropped,
      Permutation (highScores (savePlayerHighScore today s) ++ dropped)
        (highScores s
         ++ [HighScore.mk (trim (playerName s)) (newHighScore s) today])) /\
  localStorage (savePlayerHighScore today s)
  = Some (JSON.stringify (highScores (savePlayerHighScore today s))) /\
  exists s', mount (localStorage (savePlayerHighScore today s)) = Mounted s' /\
             highScores s' = highScores (savePlayerHighScore today s).
Proof.
  intros Hname. unfold savePlayerHighScore.
  destruct (trim (playerName s)) as [|c name] eqn:Htrim; [congruence|].
  cbn [highScores localStorage setPlayerName setShowNameDialog saveHighScores
       setItem setHighScores].
  set (entries := highScores s ++ [HighScore.mk (c :: name) (newHighScore s) today]).
  split; [|split; [|split; [|split]]].
  - apply firstn_descending, sort_descending.
  - apply firstn_le_length.
  - exists (skipn MAX_HIGH_SCORES (sort byScoreDescending entries)).
    rewrite firstn_skipn. apply sort_perm.
  - reflexivity.
  - eexists. split.
    + apply mount_reads_back, initHighScores_stringify.
    + reflexivity.
Qed.

Lemma accept_sorts_bounds_and_persists_witness :
  descending (highScores (savePlayerHighScore (str "3/11/2026") naming)) /\
  (length (highScores (savePlayerHighScore (str "3/11/2026") naming)) <= 5)%nat /\
  map HighScore.score (highScores (savePlayerHighScore (str "3/11/2026") naming))
  = [300; 250; 200; 150; 120].
Proof.
  destruct (accept_sorts_bounds_and_persists (str "3/11/2026") naming)
    as [Hsorted [Hlen _]].
  - vm_compute. discriminate.
  - split; [exact Hsorted|]. split; [exact Hlen|]. reflexivity.
Defined.

(** ** The preconditions of the qualification rule always hold *)

Lemma moveSnake_well_kept rands s s' :
  well_kept s -> moveSnake rands s = Some s' -> well_kept s'.
Proof.
  intros (Hsc & Hnew & Hdesc & Hlen & Hq). unfold moveSnake.
  assert (Hend : well_kept (endGame s)).
  { repeat split; try assumption. simpl.
    apply Forall_app. split; [exact Hq|]. constructor; [|constructor].
    split; assumption. }
  destruct (gameState s); try (intros [= <-]; repeat split; assumption).
  destruct (snake s) as [|first rest];
    [intros [= <-]; repeat split; assumption|].
  destruct (_ || _ || _ || _); [intros [= <-]; exact Hend|].
  destruct (existsb _ _); [intros [= <-]; exact Hend|].
  destruct (_ && _).
  - destruct (generateFood _ _) as [[newFood left]|]; [|discriminate].
    intros [= <-]. repeat split; try assumption. simpl. lia.
  - intros [= <-]. repeat split; assumption.
Qed.

Lemma handle_well_kept e s s' :
  well_kept s -> handle e s = Some s' -> well_kept s'.
Proof.
  intros Hk. pose proof Hk as (Hsc & Hnew & Hdesc & Hlen & Hq).
  destruct e as [rands|key|b| |text|today|]; simpl.
  - now apply moveSnake_well_kept.
  - intros [= <-]. unfold handleKeyPress, pauseGame.
    destruct (gameState s), key; try exact Hk;
      try (match goal with |- context [if ?c then _ else _] => destruct c end);
      repeat split; assumption.
  - intros [= <-]. unfold click, startGame, pauseGame, resetGame.
    destruct b, (gameState s); try exact Hk;
      repeat split; try assumption; simpl; lia.
  - intros [= <-]. unfold fireTimeout, checkForNewHighScore.
    destruct (timeouts s) as [|t later] eqn:Ht; [exact Hk|].
    apply Forall_cons_iff in Hq. destruct Hq as [[Ht0 _] Hlater].
    destruct (qualifies _ _); repeat split; assumption.
  - destruct (_ && _); intros [= <-]; [|exact Hk]. repeat split; assumption.
  - destruct (showNameDialog s); intros [= <-]; [|exact Hk].
    unfold savePlayerHighScore. destruct (trim (playerName s)); [exact Hk|].
    unfold well_kept.
    cbn [score newHighScore highScores timeouts setPlayerName
         setShowNameDialog saveHighScores setItem setHighScores].
    split; [exact Hsc|]. split; [exact Hnew|].
    split; [apply firstn_descending, sort_descending|].
    split; [apply firstn_le_length | exact Hq].
  - intros [= <-]. repeat split; assumption.
Qed.

Lemma mount_well_kept saved s :
  kept_storage saved -> mount saved = Mounted s -> well_kept s.
Proof.
  intros [-> | (hs & -> & Hdesc & Hlen)].
  - intros [= <-]. repeat split; simpl; try lia; constructor.
  - rewrite (mount_reads_back hs) by apply initHighScores_stringify.
    intros [= <-]. repeat split; simpl; try lia; try assumption. constructor.
Qed.

Lemma run_well_kept es s s' :
  well_kept s -> run es s = Some s' -> well_kept s'.
Proof.
  revert s. induction es as [|e es IH]; simpl; intros s Hk.
  - now intros [= <-].
  - destruct (handle e s) as [s1|] eqn:Hh; [|discriminate].
    apply IH. now apply handle_well_kept with (e := e) (s := s).
Qed.

(** In a session that starts on kept storage, every pending high-score check
    decides by the rule of the specification. *)
Lemma pending_check_follows_rule saved s0 es s t later :
  kept_storage saved -> mount saved = Mounted s0 -> run es s0 = Some s ->
  timeouts s = t :: later ->
  qualifies (seenHighScores t) (finalScore t) = true <->
  0 < finalScore t /\
  ((length (seenHighScores t) < MAX_HIGH_SCORES)%nat
   \/ exists m, lowest_score (seenHighScores t) = Some m /\ m < finalScore t).
Proof.
  intros Hst Hm Hrun Ht.
  pose proof (run_well_kept es s0 s (mount_well_kept _ _ Hst Hm) Hrun)
    as (_ & _ & _ & _ & Hq).
  rewrite Ht in Hq. apply Forall_cons_iff in Hq. destruct Hq as [[H0 Hd] _].
  now apply qualifies_spec.
Qed.

(** [pauseGame] itself has no guard: it is its callers that never run it in
    the states [waiting] and [gameOver]. *)
Lemma pauseGame_unguarded s :
  gameState s <> paused -> gameState (pauseGame s) = paused.
Proof. unfold pauseGame. simpl. now destruct (gameState s). Qed.

(** The direction is one of the four unit vectors in every reachable
    state. *)
Lemma reachable_cardinal s : reachable s -> is_cardinal (direction s) = true.
Proof.
  induction 1 as [saved s Hm|e s s' _ IH Hh].
  - unfold mount in Hm. destruct (initHighScores saved); [|discriminate].
    destruct (JSON.as_HighScores a); [|discriminate].
    now injection Hm as <-.
  - destruct e as [rands|key|b| |text|today|]; simpl in Hh.
    + unfold moveSnake in Hh.
      destruct (gameState s); try (now injection Hh as <-).
      destruct (snake s); [now injection Hh as <-|].
      destruct (_ || _ || _ || _); [now injection Hh as <-|].
      destruct (existsb _ _); [now injection Hh as <-|].
      destruct (_ && _); [|now injection Hh as <-].
      destruct (generateFood _ _) as [[newFood left]|]; [|discriminate].
      now injection Hh as <-.
    + injection Hh as <-. unfold handleKeyPress, pauseGame.
      destruct (gameState s), key; try exact IH;
        match goal with |- context [if ?c then _ else _] => destruct c end;
        try exact IH; reflexivity.
    + injection Hh as <-. unfold click, startGame, pauseGame, resetGame.
      destruct b, (gameState s); try exact IH; try reflexivity; simpl;
        match goal with |- context [if ?c then _ else _] => destruct c end;
        try exact IH; reflexivity.
    + injection Hh as <-. unfold fireTimeout, checkForNewHighScore.
      destruct (timeouts s); [exact IH|]. now destruct (qualifies _ _).
    + destruct (_ && _); now injection Hh as <-.
    + destruct (showNameDialog s); injection Hh as <-; [|exact IH].
      unfold savePlayerHighScore. now destruct (trim _).
    + now injection Hh as <-.
Qed.

(** ** What a tick can do *)

Lemma moveSnake_cases rands s s' :
  moveSnake rands s = Some s' ->
  s' = s \/ s' = endGame s \/
  exists first rest,
    gameState s = playing /\ snake s = first :: rest /\
    in_grid (advance first (direction s)) /\
    ~ In (advance first (direction s)) (snake s) /\
    ((advance first (direction s) = food s /\
      exists newFood left,
        generateFood rands (advance first (direction s) :: snake s)
        = Some (newFood, left) /\
        s' = setSnake (advance first (direction s) :: snake s)
               (setFood newFood (setScore (score s + 10) s)))
     \/ (advance first (direction s) <> food s /\
         s' = setSnake
                (removelast (advance first (direction s) :: snake s)) s)).
Proof.
  intros Hmove. unfold moveSnake in Hmove.
  destruct (gameState s) eqn:Hgs; try (injection Hmove as <-; now left).
  destruct (snake s) as [|first rest] eqn:Hsn;
    [injection Hmove as <-; now left|].
  set (head := advance first (direction s)) in *.
  destruct ((x head <? 0) || (x head >=? GRID_SIZE)
            || (y head <? 0) || (y head >=? GRID_SIZE)) eqn:Hwall;
    [injection Hmove as <-; right; now left|].
  destruct (existsb (same_cell head) (first :: rest)) eqn:Hself;
    [injection Hmove as <-; right; now left|].
  right. right. exists first, rest.
  assert (Hin : in_grid head).
  { unfold in_grid, GRID_SIZE in *.
    rewrite !orb_false_iff in Hwall. destruct Hwall as [[[H1 H2] H3] H4].
    rewrite Z.ltb_ge in H1, H3. rewrite Z.geb_leb in H2, H4.
    apply Z.leb_gt in H2, H4. lia. }
  apply off_body_iff in Hself.
  split; [reflexivity|]. split; [reflexivity|]. split; [exact Hin|].
  split; [exact Hself|].
  destruct ((x head =? x (food s)) && (y head =? y (food s))) eqn:Heat.
  - left. apply eats_iff in Heat. split; [exact Heat|].
    destruct (generateFood rands (head :: first :: rest))
      as [[newFood left]|] eqn:Hgen; [|discriminate].
    exists newFood, left. split; [exact Hgen|]. now injection Hmove as <-.
  - right. split; [|now injection Hmove as <-].
    intros Heq. apply eats_iff in Heq. unfold head in Heat.
    rewrite Heq in Heat. discriminate.
Qed.

(** ** The board stays well formed *)

Lemma chain_removelast body : chain body -> chain (removelast body).
Proof.
  induction body as [|a body IH]; [trivial|].
  destruct body as [|b body]; [trivial|].
  change (removelast (a :: b :: body)) with (a :: removelast (b :: body)).
  intros [Hab Hc]. specialize (IH Hc).
  destruct body as [|c body]; [exact I|].
  change (removelast (b :: c :: body)) with (b :: removelast (c :: body)) in *.
  split; assumption.
Qed.

Lemma Forall_removelast {A} (P : A -> Prop) (l : list A) :
  Forall P l -> Forall P (removelast l).
Proof.
  rewrite !Forall_forall. intros H a Ha. apply H. now apply In_removelast.
Qed.

Lemma advance_adjacent first d :
  is_cardinal d = true -> adjacent (advance first d) first.
Proof.
  unfold is_cardinal, adjacent, advance. destruct d as [dx dy]. simpl.
  destruct dx as [|[| |]|[| |]]; try discriminate;
    destruct dy as [|[| |]|[| |]]; try discriminate; intros _; lia.
Qed.

Lemma initial_board_ok s :
  snake s = INITIAL_SNAKE -> food s = INITIAL_FOOD ->
  direction s = INITIAL_DIRECTION -> score s = 0 -> board_ok s.
Proof.
  intros Hsn Hf Hd Hsc. unfold board_ok. rewrite Hsn, Hf, Hd, Hsc.
  unfold INITIAL_SNAKE, INITIAL_FOOD, INITIAL_DIRECTION.
  split; [constructor; [intros []|constructor]|].
  split; [discriminate|].
  split; [constructor; [unfold in_grid, GRID_SIZE; simpl; lia|constructor]|].
  split; [intros [H|[]]; discriminate|].
  repeat split.
Qed.

Lemma board_ok_same s s' :
  snake s' = snake s -> food s' = food s -> direction s' = direction s ->
  score s' = score s -> board_ok s -> board_ok s'.
Proof. unfold board_ok. now intros -> -> -> ->. Qed.

Lemma moveSnake_board_ok rands s s' :
  board_ok s -> moveSnake rands s = Some s' -> board_ok s'.
Proof.
  intros Hok Hmove.
  destruct (moveSnake_cases _ _ _ Hmove)
    as [-> | [-> | (first & rest & Hgs & Hsn & Hin & Hclear & Hcase)]];
    [exact Hok | exact Hok |].
  destruct Hok as (Hnd & Hne & Hgrid & Hfood & Hchain & Hcard & Hscore).
  set (head := advance first (direction s)) in *.
  assert (Hgrown : NoDup (head :: snake s)) by now constructor.
  assert (Hgridg : Forall in_grid (head :: snake s)) by now constructor.
  assert (Hchaing : chain (head :: snake s)).
  { rewrite Hsn in *. split; [now apply advance_adjacent | exact Hchain]. }
  destruct Hcase as [[Heat (newFood & left & Hgen & ->)] | [Hne' ->]].
  - apply generateFood_free in Hgen. destruct Hgen as [Hfree _].
    unfold board_ok.
    cbn [snake food direction score setSnake setFood setScore].
    split; [exact Hgrown|]. split; [discriminate|]. split; [exact Hgridg|].
    split; [exact Hfree|]. split; [exact Hchaing|]. split; [exact Hcard|].
    rewrite Hscore. cbn [length]. lia.
  - unfold board_ok. cbn [snake food direction score setSnake].
    split; [now apply NoDup_removelast|].
    split; [rewrite Hsn; discriminate|].
    split; [now apply Forall_removelast|].
    split.
    { intros Hin'. apply In_removelast in Hin'.
      destruct Hin' as [Heq | Hin']; [now apply Hne' | now apply Hfood]. }
    split; [now apply chain_removelast|]. split; [exact Hcard|].
    rewrite removelast_length. exact Hscore.
Qed.

Lemma handle_board_ok e s s' :
  board_ok s -> handle e s = Some s' -> board_ok s'.
Proof.
  intros Hok. destruct e as [rands|key|b| |text|today|]; simpl.
  - now apply moveSnake_board_ok.
  - intros [= <-]. unfold handleKeyPress, pauseGame.
    destruct Hok as (Hnd & Hne & Hgrid & Hfood & Hchain & Hcard & Hscore).
    destruct (gameState s), key;
      try (match goal with
           | |- context [if ?c then _ else _] => destruct c
           end);
      repeat split; assumption.
  - intros [= <-]. unfold click, startGame, pauseGame, resetGame.
    destruct b, (gameState s); try exact Hok;
      try (apply initial_board_ok; reflexivity);
      try (revert Hok; apply board_ok_same; reflexivity);
      destruct Hok as (Hnd & Hne & Hgrid & Hfood & Hchain & Hcard & Hscore);
      cbn [direction setDirection];
      match goal with
      | |- context [if ?c then _ else _] => destruct c
      end; repeat split; assumption.
  - intros [= <-]. revert Hok. apply board_ok_same;
      unfold fireTimeout, checkForNewHighScore;
      (destruct (timeouts s); [reflexivity|]);
      destruct (qualifies _ _); reflexivity.
  - destruct (_ && _); intros [= <-]; [|exact Hok].
    revert Hok. now apply board_ok_same.
  - destruct (showNameDialog s); intros [= <-]; [|exact Hok].
    revert Hok. apply board_ok_same; unfold savePlayerHighScore;
      now destruct (trim _).
  - intros [= <-]. revert Hok. now apply board_ok_same.
Qed.

Lemma mount_board_ok saved s : mount saved = Mounted s -> board_ok s.
Proof.
  unfold mount. destruct (initHighScores saved); [|discriminate].
  destruct (JSON.as_HighScores a); [|discriminate].
  intros [= <-]. now apply initial_board_ok.
Qed.

Lemma reachable_board_ok s : reachable s -> board_ok s.
Proof.
  induction 1 as [saved s Hm|e s s' _ IH Hh].
  - now apply mount_board_ok in Hm.
  - now apply handle_board_ok in Hh.
Qed.

Lemma grid_cells_length : length grid_cells = 400%nat.
Proof. reflexivity. Qed.

Lemma body_fits_grid body :
  NoDup body -> Forall in_grid body -> (length body <= 400)%nat.
Proof.
  intros Hnd Hgrid. rewrite <- grid_cells_length.
  apply NoDup_incl_length; [exact Hnd|].
  intros p Hp. apply in_grid_cells. rewrite Forall_forall in Hgrid. auto.
Qed.

Lemma after_first_food_reachable : reachable after_first_food.
Proof.
  apply reachable_run with
    (es := [Click StartButton; KeyDown ArrowRight]
           ++ repeat (Tick []) 5 ++ [KeyDown ArrowDown] ++ repeat (Tick []) 4
           ++ [Tick [3; 4]; Tick []])
    (s := fresh).
  - apply reachable_mount with (saved := None). reflexivity.
  - vm_compute. reflexivity.
Qed.

Lemma about_to_turn_reachable : reachable about_to_turn.
Proof.
  apply reachable_run with
    (es := [Click StartButton; KeyDown ArrowRight; Tick []])
    (s := mkState INITIAL_SNAKE INITIAL_FOOD INITIAL_DIRECTION waiting 0 []
            false [] 0 None []).
  - apply reachable_mount with (saved := None). reflexivity.
  - reflexivity.
Qed.

Lemma handle_food_in_grid e s s' :
  draws_in_grid e -> in_grid (food s) -> handle e s = Some s' ->
  in_grid (food s').
Proof.
  intros Hdraws Hfood.
  assert (Hinit : in_grid INITIAL_FOOD)
    by (unfold in_grid, GRID_SIZE; simpl; lia).
  destruct e as [rands|key|b| |text|today|]; simpl.
  - intros Hmove.
    destruct (moveSnake_cases _ _ _ Hmove)
      as [-> | [-> | (first & rest & _ & _ & _ & _ & Hcase)]];
      [exact Hfood | exact Hfood |].
    destruct Hcase as [[_ (newFood & left & Hgen & ->)] | [_ ->]];
      [|exact Hfood].
    apply generateFood_free in Hgen. destruct Hgen as [_ Hdrawn].
    apply candidates_in_grid in Hdraws. rewrite Forall_forall in Hdraws.
    now apply Hdraws.
  - intros [= <-]. unfold handleKeyPress, pauseGame.
    destruct (gameState s), key; try exact Hfood;
      match goal with |- context [if ?c then _ else _] => destruct c end;
      exact Hfood.
  - intros [= <-]. unfold click, startGame, pauseGame, resetGame.
    destruct b, (gameState s); try exact Hfood; exact Hinit.
  - intros [= <-]. unfold fireTimeout, checkForNewHighScore.
    destruct (timeouts s); [exact Hfood|]. now destruct (qualifies _ _).
  - destruct (_ && _); now intros [= <-].
  - destruct (showNameDialog s); intros [= <-]; [|exact Hfood].
    unfold savePlayerHighScore. now destruct (trim _).
  - now intros [= <-].
Qed.

Lemma run_food_in_grid es s s' :
  Forall draws_in_grid es -> in_grid (food s) -> run es s = Some s' ->
  in_grid (food s').
Proof.
  revert s. induction es as [|e es IH]; simpl; intros s Hdraws Hfood.
  - now intros [= <-].
  - destruct (handle e s) as [s1|] eqn:Hh; [|discriminate].
    inversion Hdraws as [|? ? He Hes]; subst.
    apply IH; [exact Hes|]. now apply handle_food_in_grid with (e := e) (s := s).
Qed.

(** ** Properties of the board *)

(** X1.  In every reachable state the food is on none of the cells of the
    snake. *)
Theorem food_never_on_snake (s : State) :
  reachable s -> ~ In (food s) (snake s).
Proof. intros Hr. now destruct (reachable_board_ok s Hr) as (_ & _ & _ & H & _). Qed.

Lemma food_never_on_snake_witness :
  ~ In (food about_to_turn) (snake about_to_turn).
Proof.
  apply (food_never_on_snake about_to_turn).
  exact about_to_turn_reachable.
Defined.

(** X2.  In every state of a session all the segments of the snake are
    cells of the grid, and so is the food when the draws of every tick are
    integers of [0, GRID_SIZE). *)
Theorem board_stays_in_grid
  (saved : option jsstring) (s0 s : State) (es : list Event) :
  mount saved = Mounted s0 ->
  run es s0 = Some s ->
  Forall in_grid (snake s) /\
  (Forall draws_in_grid es -> in_grid (food s)).
Proof.
  intros Hm Hrun. split.
  - assert (Hr : reachable s).
    { apply reachable_run with (es := es) (s := s0); [|exact Hrun].
      now apply reachable_mount with (saved := saved). }
    now destruct (reachable_board_ok s Hr) as (_ & _ & H & _).
  - intros Hdraws. apply run_food_in_grid with (es := es) (s := s0);
      [exact Hdraws | | exact Hrun].
    unfold mount in Hm. destruct (initHighScores saved); [|discriminate].
    destruct (JSON.as_HighScores a); [|discriminate].
    injection Hm as <-. unfold in_grid, GRID_SIZE. simpl. lia.
Qed.

Lemma board_stays_in_grid_witness :
  Forall in_grid (snake about_to_turn) /\ in_grid (food about_to_turn).
Proof.
  destruct (board_stays_in_grid None fresh about_to_turn
              [Click StartButton; KeyDown ArrowRight; Tick []])
    as [Hsnake Hfood].
  - reflexivity.
  - reflexivity.
  - split; [exact Hsnake|]. apply Hfood. repeat constructor.
Defined.

(** X3.  In every reachable state the score is ten times the number of
    segments the snake has gained: [10 * (length - 1)].  The snake has between
    1 and 400 segments, so the score lies between 0 and 3990. *)
Theorem score_counts_segments (s : State) :
  reachable s ->
  score s = 10 * (Z.of_nat (length (snake s)) - 1) /\
  (1 <= length (snake s) <= 400)%nat /\
  0 <= score s <= 3990.
Proof.
  intros Hr.
  destruct (reachable_board_ok s Hr) as (Hnd & Hne & Hgrid & _ & _ & _ & Hsc).
  pose proof (body_fits_grid _ Hnd Hgrid) as Hfit.
  assert (Hpos : (1 <= length (snake s))%nat)
    by (destruct (snake s); [contradiction | simpl; lia]).
  split; [exact Hsc|]. split; lia.
Qed.

Lemma score_counts_segments_witness :
  (score after_first_food = 10 /\ length (snake after_first_food) = 2%nat /\
   score after_first_food
   = 10 * (Z.of_nat (length (snake after_first_food)) - 1)) /\
  (score last_free_cell = 3980 /\ length (snake last_free_cell) = 399%nat /\
   score last_free_cell
   = 10 * (Z.of_nat (length (snake last_free_cell)) - 1) /\
   (length (snake last_free_cell) <= 400)%nat).
Proof.
  destruct (score_counts_segments after_first_food after_first_food_reachable)
    as [Hfirst _].
  destruct (score_counts_segments last_free_cell last_free_cell_reachable)
    as [Hlast [[_ Hfits] _]].
  split.
  - split; [reflexivity|]. split; [reflexivity | exact Hfirst].
  - split; [reflexivity|]. split; [vm_compute; reflexivity|].
    split; [exact Hlast | exact Hfits].
Defined.

(** X4.  In every reachable state each segment of the snake shares a side
    with the next one: the body is one connected path of cells. *)
Theorem snake_is_connected (s : State) : reachable s -> chain (snake s).
Proof. intros Hr. now destruct (reachable_board_ok s Hr) as (_ & _ & _ & _ & H & _). Qed.

Lemma snake_is_connected_witness : chain (snake after_first_food).
Proof.
  apply (snake_is_connected after_first_food).
  exact after_first_food_reachable.
Defined.

(** ** Where a new entry lands *)

Lemma insert_front a l :
  match l with
  | [] => True
  | b :: _ => HighScore.score b <= HighScore.score a
  end ->
  insert byScoreDescending a l = a :: l.
Proof.
  destruct l as [|b l]; [reflexivity|]. intros Hle. cbn [insert].
  unfold byScoreDescending.
  destruct (Z.leb_spec (HighScore.score b - HighScore.score a) 0);
    [reflexivity | lia].
Qed.

Lemma filter_all_below c (l : list HighScore.t) :
  Forall (fun b => HighScore.score b < c) l ->
  filter (fun h => c <=? HighScore.score h) l = [] /\
  filter (fun h => HighScore.score h <? c) l = l.
Proof.
  induction 1 as [|b l Hb _ [IH1 IH2]]; [split; reflexivity|].
  cbn [filter].
  destruct (Z.leb_spec c (HighScore.score b)); [lia|].
  destruct (Z.ltb_spec (HighScore.score b) c); [|lia].
  split; [exact IH1 | now rewrite IH2].
Qed.

Lemma filter_all_above c (l : list HighScore.t) :
  Forall (fun b => c <= HighScore.score b) l ->
  filter (fun h => c <=? HighScore.score h) l = l /\
  filter (fun h => HighScore.score h <? c) l = [].
Proof.
  induction 1 as [|b l Hb _ [IH1 IH2]]; [split; reflexivity|].
  cbn [filter].
  destruct (Z.leb_spec c (HighScore.score b)); [|lia].
  destruct (Z.ltb_spec (HighScore.score b) c); [lia|].
  split; [now rewrite IH1 | exact IH2].
Qed.

Lemma sort_placed new hs :
  descending hs -> sort byScoreDescending (hs ++ [new]) = placed new hs.
Proof.
  unfold descending. induction 1 as [|h t Hs IH Hall]; [reflexivity|].
  change (sort byScoreDescending ((h :: t) ++ [new]))
    with (insert byScoreDescending h (sort byScoreDescending (t ++ [new]))).
  rewrite IH. unfold placed. cbn [filter].
  destruct (Z.leb_spec (HighScore.score new) (HighScore.score h)) as [Hle|Hgt].
  - destruct (Z.ltb_spec (HighScore.score h) (HighScore.score new)); [lia|].
    apply insert_front.
    destruct (filter _ t) as [|f F] eqn:HF; [exact Hle|].
    assert (Hin : In f t).
    { assert (Hf : In f (f :: F)) by now left.
      rewrite <- HF in Hf. now apply filter_In in Hf. }
    rewrite Forall_forall in Hall. specialize (Hall f Hin). cbn [app]. lia.
  - destruct (Z.ltb_spec (HighScore.score h) (HighScore.score new)); [|lia].
    destruct (filter_all_below (HighScore.score new) t) as [-> ->].
    { revert Hall. apply Forall_impl. intros; lia. }
    cbn [app insert]. unfold byScoreDescending at 1.
    destruct (Z.leb_spec (HighScore.score new - HighScore.score h) 0);
      [lia|].
    f_equal. apply insert_front.
    destruct t as [|b t]; [exact I|].
    apply Forall_cons_iff in Hall. lia.
Qed.

Lemma descending_above_last hs r :
  descending hs ->
  nth_error hs (length hs - 1) = Some r ->
  Forall (fun h => HighScore.score r <= HighScore.score h) hs.
Proof.
  unfold descending. induction 1 as [|h t Hs IH Hall]; [discriminate|].
  intros Hnth. destruct t as [|k t].
  - injection Hnth as <-. constructor; [lia|constructor].
  - rewrite (nth_error_last (h :: k :: t) h) in Hnth by discriminate.
    change (last (h :: k :: t) h) with (last (k :: t) h) in Hnth.
    assert (Hlast : nth_error (k :: t) (length (k :: t) - 1) = Some r).
    { rewrite (nth_error_last (k :: t) h) by discriminate. exact Hnth. }
    specialize (IH Hlast). constructor; [|exact IH].
    apply nth_error_In in Hlast. rewrite Forall_forall in Hall.
    specialize (Hall r Hlast). lia.
Qed.

Lemma filter_partition_length (c : Z) (l : list HighScore.t) :
  (length (filter (fun h => (c <=? HighScore.score h)%Z) l)
   + length (filter (fun h => (HighScore.score h <? c)%Z) l) = length l)%nat.
Proof.
  induction l as [|b l IH]; [reflexivity|]. cbn [filter].
  destruct (Z.leb_spec c (HighScore.score b));
    destruct (Z.ltb_spec (HighScore.score b) c); try lia;
    cbn [length]; lia.
Qed.

Lemma qualifying_is_kept new hs :
  descending hs -> (length hs <= MAX_HIGH_SCORES)%nat ->
  qualifies hs (HighScore.score new) = true ->
  In new (firstn MAX_HIGH_SCORES (placed new hs)).
Proof.
  intros Hdesc Hlen Hq. unfold placed.
  set (F := filter (fun h => HighScore.score new <=? HighScore.score h) hs).
  set (G := filter (fun h => HighScore.score h <? HighScore.score new) hs).
  assert (HF : (length F < MAX_HIGH_SCORES)%nat).
  { pose proof (filter_partition_length (HighScore.score new) hs) as Hpart.
    fold F G in Hpart. unfold qualifies in Hq.
    destruct (HighScore.score new =? 0); [discriminate|].
    destruct (Nat.ltb_spec (length hs) MAX_HIGH_SCORES) as [Hlt|Hge]; [lia|].
    destruct (nth_error hs (length hs - 1)) as [r|] eqn:Hnth; [|discriminate].
    apply Z.ltb_lt in Hq.
    assert (HinG : In r G).
    { apply filter_In. split; [now apply nth_error_In in Hnth|].
      now apply Z.ltb_lt. }
    destruct G; [contradiction | cbn [length] in Hpart; lia]. }
  rewrite firstn_app. apply in_or_app. right.
  destruct (MAX_HIGH_SCORES - length F)%nat as [|n] eqn:Hn; [lia|].
  now left.
Qed.

Lemma not_qualifying_is_dropped new hs :
  descending hs -> (length hs <= MAX_HIGH_SCORES)%nat ->
  HighScore.score new <> 0 ->
  qualifies hs (HighScore.score new) = false ->
  firstn MAX_HIGH_SCORES (placed new hs) = hs.
Proof.
  intros Hdesc Hlen Hnz Hq. unfold qualifies in Hq.
  destruct (Z.eqb_spec (HighScore.score new) 0); [contradiction|].
  destruct (Nat.ltb_spec (length hs) MAX_HIGH_SCORES) as [Hlt|Hge];
    [discriminate|].
  assert (Hne : hs <> []).
  { intros ->. unfold MAX_HIGH_SCORES in Hge. simpl in Hge. lia. }
  pose proof (nth_error_last hs new Hne) as Hnth. rewrite Hnth in Hq.
  apply Z.ltb_ge in Hq.
  pose proof (descending_above_last hs _ Hdesc Hnth) as Habove.
  unfold placed.
  destruct (filter_all_above (HighScore.score new) hs) as [-> ->].
  { revert Habove. apply Forall_impl. intros; lia. }
  rewrite firstn_app. replace (MAX_HIGH_SCORES - length hs)%nat with 0%nat by lia.
  cbn [firstn]. rewrite app_nil_r. apply firstn_all2. lia.
Qed.

Lemma savePlayerHighScore_placed today s :
  trim (playerName s) <> [] ->
  descending (highScores s) ->
  highScores (savePlayerHighScore today s)
  = firstn MAX_HIGH_SCORES
      (placed (HighScore.mk (trim (playerName s)) (newHighScore s) today)
              (highScores s)).
Proof.
  intros Hname Hdesc. unfold savePlayerHighScore.
  destruct (trim (playerName s)) as [|c name] eqn:Htrim; [congruence|].
  cbn [highScores setPlayerName setShowNameDialog saveHighScores setItem
       setHighScores].
  now rewrite sort_placed.
Qed.

(** ** Properties of the leaderboard *)

(** X5.  On a leaderboard in descending order, saving a new entry keeps the
    old entries in their order and puts the new one behind every entry whose
    score is at least its own (so behind the entries it ties with) and in
    front of the lower ones; the first 5 of that list are kept. *)
Theorem newcomer_ranks_below_ties (today : jsstring) (s : State) :
  trim (playerName s) <> [] ->
  descending (highScores s) ->
  highScores (savePlayerHighScore today s)
  = firstn MAX_HIGH_SCORES
      (filter (fun h => newHighScore s <=? HighScore.score h) (highScores s)
       ++ HighScore.mk (trim (playerName s)) (newHighScore s) today
       :: filter (fun h => HighScore.score h <? newHighScore s)
            (highScores s)).
Proof. intros Hname Hdesc. now apply savePlayerHighScore_placed. Qed.

Lemma newcomer_ranks_below_ties_witness :
  map HighScore.name (highScores (savePlayerHighScore (str "3/11/2026") tying))
  = [str "A"; str "B"; str "C"; str "Zed"; str "D"].
Proof.
  rewrite (newcomer_ranks_below_ties (str "3/11/2026") tying).
  - reflexivity.
  - vm_compute. discriminate.
  - exact full_board_descending.
Defined.

(** X6.  On a leaderboard in descending order with at most 5 entries, the
    qualification rule predicts what saving does: a score that qualifies is on
    the leaderboard after [savePlayerHighScore], and a score other than 0 that
    does not qualify is dropped by the truncation, the leaderboard staying as
    it was. *)
Theorem qualifies_predicts_keeping (today : jsstring) (s : State) :
  trim (playerName s) <> [] ->
  descending (highScores s) ->
  (length (highScores s) <= MAX_HIGH_SCORES)%nat ->
  (qualifies (highScores s) (newHighScore s) = true ->
   In (HighScore.mk (trim (playerName s)) (newHighScore s) today)
      (highScores (savePlayerHighScore today s))) /\
  (qualifies (highScores s) (newHighScore s) = false ->
   newHighScore s <> 0 ->
   highScores (savePlayerHighScore today s) = highScores s).
Proof.
  intros Hname Hdesc Hlen.
  rewrite (savePlayerHighScore_placed today s Hname Hdesc). split.
  - intros Hq. now apply qualifying_is_kept.
  - intros Hq Hnz. now apply not_qualifying_is_dropped.
Qed.

Lemma qualifies_predicts_keeping_witness :
  In (HighScore.mk (str "Zed") 200 (str "3/11/2026"))
     (highScores (savePlayerHighScore (str "3/11/2026") tying)) /\
  highScores (savePlayerHighScore (str "3/11/2026") too_low) = full_board.
Proof.
  split.
  - apply (qualifies_predicts_keeping (str "3/11/2026") tying).
    + vm_compute. discriminate.
    + exact full_board_descending.
    + vm_compute. lia.
    + reflexivity.
  - apply (qualifies_predicts_keeping (str "3/11/2026") too_low).
    + vm_compute. discriminate.
    + exact full_board_descending.
    + vm_compute. lia.
    + reflexivity.
    + discriminate.
Defined.

(** ** The leaderboard over a session *)

Lemma handle_highScores e s s' :
  handle e s = Some s' ->
  (highScores s' = highScores s /\ localStorage s' = localStorage s)
  \/ exists today, e = SubmitName today /\ showNameDialog s = true /\
                   trim (playerName s) <> [] /\
                   s' = savePlayerHighScore today s.
Proof.
  destruct e as [rands|key|b| |text|today|]; simpl.
  - intros Hmove.
    destruct (moveSnake_cases _ _ _ Hmove)
      as [-> | [-> | (first & rest & _ & _ & _ & _ & Hcase)]];
      [now left | now left |].
    destruct Hcase as [[_ (newFood & spare & _ & ->)] | [_ ->]]; now left.
  - intros [= <-]. left. unfold handleKeyPress, pauseGame.
    destruct (gameState s), key; try (split; reflexivity);
      match goal with |- context [if ?c then _ else _] => destruct c end;
      split; reflexivity.
  - intros [= <-]. left. unfold click, startGame, pauseGame, resetGame.
    destruct b, (gameState s); split; reflexivity.
  - intros [= <-]. left. unfold fireTimeout, checkForNewHighScore.
    destruct (timeouts s); [split; reflexivity|].
    destruct (qualifies _ _); split; reflexivity.
  - destruct (_ && _); intros [= <-]; left; split; reflexivity.
  - destruct (showNameDialog s) eqn:Hopen; intros [= <-];
      [|left; split; reflexivity].
    destruct (trim (playerName s)) as [|c name] eqn:Htrim.
    + left. unfold savePlayerHighScore. rewrite Htrim. split; reflexivity.
    + right. exists today. repeat split. congruence.
  - intros [= <-]. left. split; reflexivity.
Qed.

Lemma descending_best_first h t :
  descending (h :: t) ->
  Forall (fun k => HighScore.score k <= HighScore.score h) (h :: t).
Proof.
  intros Hdesc. apply StronglySorted_inv in Hdesc. destruct Hdesc as [_ Hall].
  constructor; [lia|]. revert Hall. apply Forall_impl. intros; lia.
Qed.

Lemma best_is_maximum s :
  descending (highScores s) ->
  Forall (fun h => HighScore.score h <= currentHighScore s) (highScores s).
Proof.
  unfold currentHighScore. destruct (highScores s) as [|h t]; [constructor|].
  apply descending_best_first.
Qed.

Lemma save_raises_best today s :
  well_kept s -> trim (playerName s) <> [] ->
  currentHighScore s <= currentHighScore (savePlayerHighScore today s).
Proof.
  intros (_ & Hnew & Hdesc & _ & _) Hname. unfold currentHighScore at 2.
  rewrite (savePlayerHighScore_placed today s Hname Hdesc).
  unfold currentHighScore, placed.
  destruct (highScores s) as [|h t]; [exact Hnew|].
  cbn [filter HighScore.score].
  destruct (Z.leb_spec (newHighScore s) (HighScore.score h)) as [Hle|Hgt].
  - cbn [app firstn MAX_HIGH_SCORES]. lia.
  - destruct (filter _ t) as [|f F] eqn:HF.
    + cbn [app firstn MAX_HIGH_SCORES HighScore.score]. lia.
    + assert (Hf : In f (f :: F)) by now left.
      rewrite <- HF in Hf. apply filter_In in Hf. destruct Hf as [_ Hf].
      apply Z.leb_le in Hf. cbn [HighScore.score] in Hf.
      cbn [app firstn MAX_HIGH_SCORES]. lia.
Qed.

Lemma handle_in_sync e s s' :
  in_sync s -> handle e s = Some s' -> in_sync s'.
Proof.
  intros Hsync Hh.
  destruct (handle_highScores _ _ _ Hh)
    as [[Hhs Hst] | (today & _ & _ & Hname & ->)].
  - unfold in_sync. now rewrite Hhs, Hst.
  - right. unfold savePlayerHighScore.
    destruct (trim (playerName s)); [congruence | reflexivity].
Qed.

Lemma run_in_sync es s s' :
  in_sync s -> run es s = Some s' -> in_sync s'.
Proof.
  revert s. induction es as [|e es IH]; simpl; intros s Hsync.
  - now intros [= <-].
  - destruct (handle e s) as [s1|] eqn:Hh; [|discriminate].
    apply IH. now apply handle_in_sync with (e := e) (s := s).
Qed.

Lemma in_sync_reloads s :
  in_sync s ->
  exists s', mount (localStorage s) = Mounted s' /\
             highScores s' = highScores s.
Proof.
  intros [[-> ->] | ->].
  - eexists. split; reflexivity.
  - eexists. split.
    + apply mount_reads_back, initHighScores_stringify.
    + reflexivity.
Qed.

(** X7.  On a state that keeps the leaderboard's order, after any event the
    score shown as Best is at least every score on the leaderboard, and it is
    never lower than before the event. *)
Theorem best_score_is_maximum_and_grows (e : Event) (s s' : State) :
  well_kept s ->
  handle e s = Some s' ->
  Forall (fun h => HighScore.score h <= currentHighScore s') (highScores s') /\
  currentHighScore s <= currentHighScore s'.
Proof.
  intros Hk Hh. split.
  - apply best_is_maximum.
    now destruct (handle_well_kept _ _ _ Hk Hh) as (_ & _ & H & _).
  - destruct (handle_highScores _ _ _ Hh)
      as [[Hhs _] | (today & _ & _ & Hname & ->)].
    + unfold currentHighScore. rewrite Hhs. lia.
    + now apply save_raises_best.
Qed.

Lemma naming_well_kept : well_kept naming.
Proof.
  unfold well_kept, naming.
  cbn [score newHighScore highScores timeouts].
  split; [lia|]. split; [lia|]. split; [exact full_board_descending|].
  split; [unfold MAX_HIGH_SCORES; simpl; lia | constructor].
Qed.

Lemma best_score_is_maximum_and_grows_witness :
  currentHighScore naming
  <= currentHighScore (savePlayerHighScore (str "3/11/2026") naming).
Proof.
  destruct (best_score_is_maximum_and_grows (SubmitName (str "3/11/2026"))
              naming (savePlayerHighScore (str "3/11/2026") naming))
    as [_ Hgrow].
  - exact naming_well_kept.
  - reflexivity.
  - exact Hgrow.
Defined.

(** X8.  In a session that starts on empty storage or on a text that
    [saveHighScores] wrote, the storage slot and the leaderboard never part:
    mounting the component again on the slot, at any point of the session,
    yields the leaderboard of that point. *)
Theorem reload_restores_leaderboard
  (saved : option jsstring) (s0 s : State) (es : list Event) :
  saved = None \/ (exists hs, saved = Some (JSON.stringify hs)) ->
  mount saved = Mounted s0 ->
  run es s0 = Some s ->
  exists s', mount (localStorage s) = Mounted s' /\
             highScores s' = highScores s.
Proof.
  intros Hsaved Hm Hrun. apply in_sync_reloads.
  apply run_in_sync with (es := es) (s := s0); [|exact Hrun].
  destruct Hsaved as [-> | [hs ->]].
  - injection Hm as <-. left. split; reflexivity.
  - rewrite (mount_reads_back hs) in Hm by apply initHighScores_stringify.
    injection Hm as <-. right. reflexivity.
Qed.

Lemma reload_restores_leaderboard_witness :
  (exists s,
      run recorded_game fresh = Some s /\
      highScores s = [HighScore.mk (str "Al") 10 (str "1/1/2026")] /\
      exists s', mount (localStorage s) = Mounted s' /\
                 highScores s' = highScores s) /\
  (exists s0 s,
      mount (Some (JSON.stringify
                     [HighScore.mk (str "Al") 10 (str "1/1/2026")]))
      = Mounted s0 /\
      run recorded_game s0 = Some s /\
      highScores s = [HighScore.mk (str "Al") 10 (str "1/1/2026");
                      HighScore.mk (str "Al") 10 (str "1/1/2026")] /\
      exists s', mount (localStorage s) = Mounted s' /\
                 highScores s' = highScores s).
Proof.
  split.
  - eexists. split; [vm_compute; reflexivity|]. split; [reflexivity|].
    apply (reload_restores_leaderboard None fresh _ recorded_game).
    + left. reflexivity.
    + reflexivity.
    + vm_compute. reflexivity.
  - eexists. eexists. split; [vm_compute; reflexivity|].
    split; [vm_compute; reflexivity|]. split; [reflexivity|].
    eapply (reload_restores_leaderboard
             (Some (JSON.stringify
                      [HighScore.mk (str "Al") 10 (str "1/1/2026")]))
             _ _ recorded_game).
    + right. eexists. reflexivity.
    + vm_compute. reflexivity.
    + vm_compute. reflexivity.
Defined.

(** ** Trimmed names *)

Lemma trim_start_spec s :
  exists ws, s = ws ++ trim_start s /\ forallb is_white_space ws = true.
Proof.
  induction s as [|c s [ws [Heq Hws]]]; [now exists []|].
  cbn [trim_start]. destruct (is_white_space c) eqn:Hc.
  - exists (c :: ws). cbn [app forallb]. rewrite Hc, Hws. split; [|reflexivity].
    now f_equal.
  - now exists [].
Qed.

Lemma trim_start_head s c r :
  trim_start s = c :: r -> is_white_space c = false.
Proof.
  induction s as [|d s IH]; [discriminate|]. cbn [trim_start].
  destruct (is_white_space d) eqn:Hd; [exact IH|]. now intros [= <- <-].
Qed.

Lemma trim_start_fixed s :
  match s with
  | c :: _ => is_white_space c = false
  | [] => True
  end -> trim_start s = s.
Proof. destruct s as [|c s]; [reflexivity|]. cbn [trim_start]. now intros ->. Qed.

Lemma trim_start_length s : (length (trim_start s) <= length s)%nat.
Proof.
  destruct (trim_start_spec s) as [ws [Heq _]].
  rewrite Heq at 2. rewrite length_app. lia.
Qed.

Lemma trim_length s : (length (trim s) <= length s)%nat.
Proof.
  unfold trim. rewrite length_rev.
  pose proof (trim_start_length (rev (trim_start s))) as H1.
  pose proof (trim_start_length s) as H2.
  rewrite length_rev in H1. lia.
Qed.

Lemma trim_idempotent s : trim (trim s) = trim s.
Proof.
  unfold trim.
  set (t := trim_start s). set (u := trim_start (rev t)).
  assert (Hu : trim_start u = u).
  { apply trim_start_fixed. destruct u as [|c r] eqn:Hueq; [exact I|].
    now apply trim_start_head in Hueq. }
  assert (Hru : trim_start (rev u) = rev u).
  { apply trim_start_fixed. destruct (rev u) as [|c r] eqn:Hrev; [exact I|].
    destruct (trim_start_spec (rev t)) as [ws [Heq _]]. fold u in Heq.
    apply (f_equal (@rev N)) in Heq.
    rewrite rev_involutive, rev_app_distr, Hrev in Heq.
    cbn [app] in Heq. unfold t in Heq. now apply trim_start_head in Heq. }
  now rewrite Hru, rev_involutive, Hu.
Qed.

(** ** The records of the leaderboard *)

Lemma board_ok_valid_final_score s :
  board_ok s -> 0 <= score s <= 3990 /\ score s mod 10 = 0.
Proof.
  intros (Hnd & Hne & Hgrid & _ & _ & _ & Hsc).
  pose proof (body_fits_grid _ Hnd Hgrid) as Hfit.
  assert (Hpos : (1 <= length (snake s))%nat)
    by (destruct (snake s); [contradiction | simpl; lia]).
  split; [lia|]. rewrite Hsc, Z.mul_comm. apply Z.mod_mul. lia.
Qed.

Lemma Forall_firstn {A} (P : A -> Prop) n (l : list A) :
  Forall P l -> Forall P (firstn n l).
Proof.
  intros H. rewrite <- (firstn_skipn n l) in H.
  now apply Forall_app in H.
Qed.

Lemma records_ok_same s s' :
  highScores s' = highScores s -> playerName s' = playerName s ->
  showNameDialog s' = showNameDialog s -> newHighScore s' = newHighScore s ->
  timeouts s' = timeouts s -> board_ok s' ->
  records_ok s -> records_ok s'.
Proof.
  unfold records_ok. intros -> -> -> -> -> Hb (H1 & H2 & H3 & H4 & _).
  repeat (split; [assumption|]). exact Hb.
Qed.

Lemma save_records_ok today s :
  records_ok s -> showNameDialog s = true ->
  records_ok (savePlayerHighScore today s).
Proof.
  intros Hok Hopen. pose proof Hok as (Hrec & Hlen & Hdialog & Hq & Hboard).
  unfold savePlayerHighScore.
  destruct (trim (playerName s)) as [|c name] eqn:Htrim; [exact Hok|].
  unfold records_ok.
  cbn [highScores playerName showNameDialog newHighScore timeouts
       setPlayerName setShowNameDialog saveHighScores setItem setHighScores].
  split; [|split; [simpl; lia|split; [discriminate|split; [exact Hq|]]]].
  - apply Forall_firstn.
    apply (Permutation_Forall
             (Permutation_sym (sort_perm byScoreDescending _))).
    apply Forall_app. split; [exact Hrec|]. constructor; [|constructor].
    unfold valid_record. cbn [HighScore.name HighScore.score].
    rewrite <- Htrim. split; [apply trim_idempotent|].
    split; [rewrite Htrim; discriminate|].
    split; [pose proof (trim_length (playerName s)); lia|].
    now apply Hdialog.
  - revert Hboard. now apply board_ok_same.
Qed.

Lemma handle_records_ok e s s' :
  records_ok s -> handle e s = Some s' -> records_ok s'.
Proof.
  intros Hok Hh.
  assert (Hboard' : board_ok s').
  { destruct Hok as (_ & _ & _ & _ & Hb). now apply handle_board_ok in Hh. }
  pose proof Hok as (Hrec & Hlen & Hdialog & Hq & Hboard).
  destruct e as [rands|key|b| |text|today|]; simpl in Hh.
  - destruct (moveSnake_cases _ _ _ Hh)
      as [-> | [-> | (first & rest & _ & _ & _ & _ & Hcase)]];
      [exact Hok | |].
    + unfold records_ok.
      cbn [highScores playerName showNameDialog newHighScore timeouts
           endGame setTimeouts setGameState].
      split; [exact Hrec|]. split; [exact Hlen|]. split; [exact Hdialog|].
      split; [|exact Hboard'].
      apply Forall_app. split; [exact Hq|]. constructor; [|constructor].
      now apply board_ok_valid_final_score.
    + destruct Hcase as [[_ (newFood & spare & _ & ->)] | [_ ->]];
        (split; [exact Hrec|split; [exact Hlen|split; [exact Hdialog|
         split; [exact Hq | exact Hboard']]]]).
  - injection Hh as <-. revert Hok. apply records_ok_same; try exact Hboard';
      unfold handleKeyPress, pauseGame;
      destruct (gameState s), key; try reflexivity;
      match goal with |- context [if ?c then _ else _] => destruct c end;
      reflexivity.
  - injection Hh as <-. revert Hok. apply records_ok_same; try exact Hboard';
      unfold click, startGame, pauseGame, resetGame;
      destruct b, (gameState s); reflexivity.
  - injection Hh as <-. unfold fireTimeout, checkForNewHighScore in *.
    destruct (timeouts s) as [|t later] eqn:Ht; [exact Hok|].
    apply Forall_cons_iff in Hq. destruct Hq as [[Hrange Hmod] Hlater].
    destruct (qualifies (seenHighScores t) (finalScore t)) eqn:Hqual;
      cbn [snd] in *; unfold records_ok;
      cbn [highScores playerName showNameDialog newHighScore timeouts
           setShowNameDialog setNewHighScore setTimeouts].
    + split; [exact Hrec|]. split; [exact Hlen|]. split.
      { intros _. unfold qualifies in Hqual.
        destruct (Z.eqb_spec (finalScore t) 0); [discriminate|].
        split; [lia | exact Hmod]. }
      split; [exact Hlater | exact Hboard'].
    + split; [exact Hrec|]. split; [exact Hlen|]. split; [exact Hdialog|].
      split; [exact Hlater | exact Hboard'].
  - destruct (showNameDialog s && (length text <=? 15)%nat) eqn:Hguard;
      injection Hh as <-; [|exact Hok].
    apply andb_true_iff in Hguard. destruct Hguard as [_ Hshort].
    apply Nat.leb_le in Hshort. unfold records_ok.
    cbn [highScores playerName showNameDialog newHighScore timeouts
         setPlayerName].
    split; [exact Hrec|]. split; [exact Hshort|]. split; [exact Hdialog|].
    split; [exact Hq | exact Hboard'].
  - destruct (showNameDialog s) eqn:Hopen; injection Hh as <-; [|exact Hok].
    now apply save_records_ok.
  - injection Hh as <-. unfold records_ok.
    cbn [highScores playerName showNameDialog newHighScore timeouts
         setShowNameDialog].
    split; [exact Hrec|]. split; [exact Hlen|]. split; [discriminate|].
    split; [exact Hq | exact Hboard'].
Qed.

Lemma run_records_ok es s s' :
  records_ok s -> run es s = Some s' -> records_ok s'.
Proof.
  revert s. induction es as [|e es IH]; simpl; intros s Hok.
  - now intros [= <-].
  - destruct (handle e s) as [s1|] eqn:Hh; [|discriminate].
    apply IH. now apply handle_records_ok with (e := e) (s := s).
Qed.

(** X9.  In a session that starts on a leaderboard of well-formed entries
    (an empty one in particular), every entry of the leaderboard stays well
    formed: its name is trimmed, not empty and at most 15 code units long, and
    its score is a positive multiple of 10, at most 3990. *)
Theorem leaderboard_records_well_formed
  (saved : option jsstring) (s0 s : State) (es : list Event) :
  mount saved = Mounted s0 ->
  Forall valid_record (highScores s0) ->
  run es s0 = Some s ->
  Forall valid_record (highScores s).
Proof.
  intros Hm Hrec Hrun.
  assert (Hok : records_ok s0).
  { pose proof (mount_board_ok _ _ Hm) as Hboard.
    unfold mount in Hm. destruct (initHighScores saved); [|discriminate].
    destruct (JSON.as_HighScores a); [|discriminate].
    injection Hm as <-. unfold records_ok.
    split; [exact Hrec|]. split; [simpl; lia|]. split; [discriminate|].
    split; [constructor | exact Hboard]. }
  now destruct (run_records_ok es s0 s Hok Hrun) as [H _].
Qed.

Lemma leaderboard_records_well_formed_witness :
  exists s, run recorded_game fresh = Some s /\
            highScores s = [HighScore.mk (str "Al") 10 (str "1/1/2026")] /\
            Forall valid_record (highScores s).
Proof.
  eexists. split; [vm_compute; reflexivity|]. split; [reflexivity|].
  apply (leaderboard_records_well_formed None fresh _ recorded_game).
  - reflexivity.
  - constructor.
  - vm_compute. reflexivity.
Defined.

(** ** From the collision to the leaderboard *)

Lemma run_recording rands s first rest text today :
  gameState s = playing ->
  snake s = first :: rest ->
  ~ in_grid (advance first (direction s))
  \/ In (advance first (direction s)) (snake s) ->
  timeouts s = [] ->
  qualifies (highScores s) (score s) = true ->
  (length text <= 15)%nat ->
  run [Tick rands; TimeoutFires; TypeName text; SubmitName today] s
  = Some (savePlayerHighScore today
            (setPlayerName text
               (setShowNameDialog true
                  (setNewHighScore (score s)
                     (setTimeouts [] (endGame s)))))).
Proof.
  intros Hgs Hsn Hhit Hq Hqual Hshort. cbn [run handle].
  rewrite (moveSnake_collision rands s first rest Hgs Hsn Hhit).
  unfold fireTimeout. cbn [timeouts endGame setTimeouts setGameState].
  rewrite Hq. cbn [app]. unfold checkForNewHighScore.
  cbn [seenHighScores finalScore]. rewrite Hqual. cbn [snd].
  cbn [showNameDialog setShowNameDialog setNewHighScore setTimeouts andb].
  apply Nat.leb_le in Hshort. rewrite Hshort.
  cbn [showNameDialog setPlayerName setShowNameDialog]. reflexivity.
Qed.

(** X10.  A game that ends by a collision with a qualifying score, on a
    leaderboard in descending order with at most 5 entries and with no other
    check pending, is recorded by the events that follow: the timeout fires,
    the player types a name of at most 15 code units that is not blank and
    submits it.  Afterwards the leaderboard holds the entry (trimmed name,
    final score, date), the storage slot holds the serialized leaderboard, the
    dialog is closed and its input cleared, and the board of the ended game is
    untouched. *)
Theorem qualifying_game_is_recorded
  (rands : list Z) (s : State) (first : Position) (rest : list Position)
  (text today : jsstring) :
  gameState s = playing ->
  snake s = first :: rest ->
  ~ in_grid (advance first (direction s))
  \/ In (advance first (direction s)) (snake s) ->
  timeouts s = [] ->
  descending (highScores s) ->
  (length (highScores s) <= MAX_HIGH_SCORES)%nat ->
  qualifies (highScores s) (score s) = true ->
  (length text <= 15)%nat ->
  trim text <> [] ->
  exists s',
    run [Tick rands; TimeoutFires; TypeName text; SubmitName today] s
    = Some s' /\
    In (HighScore.mk (trim text) (score s) today) (highScores s') /\
    localStorage s' = Some (JSON.stringify (highScores s')) /\
    showNameDialog s' = false /\ playerName s' = [] /\
    gameState s' = gameOver /\ snake s' = snake s /\ score s' = score s /\
    timeouts s' = [].
Proof.
  intros Hgs Hsn Hhit Hq Hdesc Hlen Hqual Hshort Hname.
  eexists. split.
  { now apply run_recording with (first := first) (rest := rest). }
  set (s3 := setPlayerName text
               (setShowNameDialog true
                  (setNewHighScore (score s) (setTimeouts [] (endGame s))))).
  assert (Hname3 : trim (playerName s3) <> []) by exact Hname.
  assert (Hdesc3 : descending (highScores s3)) by exact Hdesc.
  split.
  - rewrite (savePlayerHighScore_placed today s3 Hname3 Hdesc3).
    apply (qualifying_is_kept (HighScore.mk (trim text) (score s) today)
             (highScores s)); assumption.
  - unfold savePlayerHighScore.
    destruct (trim (playerName s3)) as [|c name] eqn:Htrim; [congruence|].
    repeat split.
Qed.

Lemma qualifying_game_is_recorded_witness :
  exists s',
    run [Tick []; TimeoutFires; TypeName (str "Al"); SubmitName (str "1/1/2026")]
        facing_bottom_wall = Some s' /\
    In (HighScore.mk (str "Al") 10 (str "1/1/2026")) (highScores s').
Proof.
  destruct (qualifying_game_is_recorded [] facing_bottom_wall
              (mkPosition 15 19) [mkPosition 15 18]
              (str "Al") (str "1/1/2026"))
    as [s' [Hrun [Hin _]]].
  - reflexivity.
  - reflexivity.
  - left. unfold in_grid, GRID_SIZE. simpl. lia.
  - reflexivity.
  - constructor.
  - unfold MAX_HIGH_SCORES. simpl. lia.
  - reflexivity.
  - simpl. lia.
  - vm_compute. discriminate.
  - exists s'. split; [exact Hrun | exact Hin].
Defined.

(** ** The game outside play, and pauses *)

Lemma handle_engine_frozen e s s' :
  handle e s = Some s' ->
  (gameState s = gameOver /\ e <> Click PlayAgainButton)
  \/ (gameState s = waiting /\ e <> Click StartButton) ->
  engine s' = engine s.
Proof.
  intros Hh Hfrozen.
  destruct e as [rands|key|b| |text|today|]; simpl in Hh.
  - unfold moveSnake in Hh.
    destruct Hfrozen as [[Hgs _] | [Hgs _]]; rewrite Hgs in Hh;
      now injection Hh as <-.
  - injection Hh as <-. unfold handleKeyPress.
    destruct Hfrozen as [[-> _] | [-> _]]; reflexivity.
  - injection Hh as <-. unfold click.
    destruct Hfrozen as [[Hgs Hne] | [Hgs Hne]]; rewrite Hgs;
      destruct b; try reflexivity; congruence.
  - injection Hh as <-. unfold fireTimeout, checkForNewHighScore.
    destruct (timeouts s); [reflexivity|]. now destruct (qualifies _ _).
  - destruct (_ && _); now injection Hh as <-.
  - destruct (showNameDialog s); injection Hh as <-; [|reflexivity].
    unfold savePlayerHighScore. now destruct (trim _).
  - now injection Hh as <-.
Qed.

(** X11.  Outside play the game is frozen: in the state [gameOver] no event
    but the click on PLAY AGAIN, and in the state [waiting] no event but the
    click on START GAME, changes the snake, the food, the direction, the game
    state or the score (ticks, keys, the other buttons, the timeout and the
    name dialog leave them as they are). *)
Theorem game_frozen_outside_play (e : Event) (s s' : State) :
  handle e s = Some s' ->
  (gameState s = gameOver /\ e <> Click PlayAgainButton)
  \/ (gameState s = waiting /\ e <> Click StartButton) ->
  snake s' = snake s /\ food s' = food s /\ direction s' = direction s /\
  gameState s' = gameState s /\ score s' = score s.
Proof.
  intros Hh Hfrozen.
  pose proof (handle_engine_frozen e s s' Hh Hfrozen) as Heq.
  unfold engine in Heq. injection Heq as H1 H2 H3 H4 H5. repeat split; assumption.
Qed.

Lemma game_frozen_outside_play_witness :
  snake (handleKeyPress ArrowLeft just_ended) = snake just_ended /\
  direction (handleKeyPress ArrowLeft just_ended) = direction just_ended.
Proof.
  destruct (game_frozen_outside_play (KeyDown ArrowLeft) just_ended
              (handleKeyPress ArrowLeft just_ended))
    as (Hsnake & _ & Hdir & _).
  - reflexivity.
  - left. split; [reflexivity | discriminate].
  - split; [exact Hsnake | exact Hdir].
Defined.

Lemma ticks_while_not_playing draws s :
  gameState s <> playing -> run (map Tick draws) s = Some s.
Proof.
  intros Hgs. induction draws as [|rands draws IH]; [reflexivity|].
  cbn [map run handle]. unfold moveSnake.
  destruct (gameState s); try contradiction; exact IH.
Qed.

Lemma run_app es1 es2 s :
  run (es1 ++ es2) s =
  match run es1 s with
  | Some s1 => run es2 s1
  | None => None
  end.
Proof.
  revert s. induction es1 as [|e es1 IH]; intros s; [reflexivity|].
  cbn [app run]. destruct (handle e s); [apply IH | reflexivity].
Qed.

(** X12.  A pause freezes the game exactly: from a state that is
    [playing], pausing with the space key, any number of ticks, and the space
    key again lead back to the very same state, whatever the ticks drew. *)
Theorem pause_freezes_the_game (draws : list (list Z)) (s : State) :
  gameState s = playing ->
  run (KeyDown Space :: map Tick draws ++ [KeyDown Space]) s = Some s.
Proof.
  intros Hgs. cbn [run handle].
  assert (Hpause : handleKeyPress Space s = setGameState paused s).
  { unfold handleKeyPress, pauseGame. now rewrite Hgs. }
  rewrite Hpause, run_app, ticks_while_not_playing by discriminate.
  cbn [run handle]. unfold handleKeyPress, pauseGame.
  cbn [gameState setGameState GameState_eqb].
  destruct s. cbn in *. now subst.
Qed.

Lemma pause_freezes_the_game_witness :
  run (KeyDown Space :: map Tick [[]; [3; 4]; []] ++ [KeyDown Space])
      about_to_turn = Some about_to_turn.
Proof.
  apply (pause_freezes_the_game [[]; [3; 4]; []] about_to_turn).
  reflexivity.
Defined.

(** ** Two quick turns *)

Lemma advance_back second d :
  advance (advance second d) (opposite d) = second.
Proof.
  unfold advance, opposite. destruct second as [sx sy], d as [dx dy].
  simpl. f_equal; lia.
Qed.

Lemma presses_gameState_arrows keys s :
  Forall (fun k => requested k <> None) keys ->
  gameState (presses keys s) = gameState s.
Proof.
  revert s. induction keys as [|key keys IH]; intros s Hkeys;
    [reflexivity|].
  inversion Hkeys as [|? ? Hk Hrest]; subst.
  unfold presses. cbn [fold_left]. fold (presses keys (handleKeyPress key s)).
  rewrite IH by exact Hrest. unfold handleKeyPress.
  destruct (gameState s) eqn:Hgs, key; try exact Hgs; try (now destruct Hk);
    match goal with |- context [if ?c then _ else _] => destruct c end;
    exact Hgs.
Qed.

(** X13.  The reversal guard looks at the direction cell only, so two quick
    key presses between two ticks get around it: with the second segment right
    behind the head, a turn to the side followed by the key opposite to the
    old direction (which, pressed alone, is ignored) leaves the direction
    reversed, and the next tick runs the head into the second segment and ends
    the game. *)
Theorem quick_double_turn_ends_game
  (rands : list Z) (s : State) (first second : Position)
  (rest : list Position) (side back : Key) (r : Direction) :
  gameState s = playing ->
  is_cardinal (direction s) = true ->
  snake s = first :: second :: rest ->
  first = advance second (direction s) ->
  requested side = Some r ->
  x r * x (direction s) + y r * y (direction s) = 0 ->
  requested back = Some (opposite (direction s)) ->
  handleKeyPress back s = s /\
  direction (presses [side; back] s) = opposite (direction s) /\
  exists s', moveSnake rands (presses [side; back] s) = Some s' /\
             gameState s' = gameOver.
Proof.
  intros Hgs Hcard Hsn Hfirst Hside Hperp Hback.
  assert (Hdir : direction (presses [side; back] s) = opposite (direction s)).
  { rewrite (proj1 (presses_direction [side; back] s (or_introl Hgs) Hcard)).
    unfold last_valid, spec_setDirection, anti_parallel, opposite in *.
    cbn [fold_left]. rewrite Hside.
    destruct (direction s) as [dx dy]. unfold is_cardinal in Hcard.
    cbn [x y] in *.
    destruct dx as [|[| |]|[| |]]; try discriminate;
      destruct dy as [|[| |]|[| |]]; try discriminate;
      destruct side; try discriminate; injection Hside as <-;
      cbn in Hperp; try discriminate;
      cbn; rewrite Hback; reflexivity. }
  split; [|split; [exact Hdir|]].
  - apply reversal_ignored with (r := opposite (direction s)); [exact Hback|].
    unfold anti_parallel, opposite. cbn [x y]. now rewrite !Z.eqb_refl.
  - exists (endGame (presses [side; back] s)). split; [|reflexivity].
    assert (Hsn' : snake (presses [side; back] s) = first :: second :: rest).
    { rewrite (proj2 (presses_direction [side; back] s (or_introl Hgs) Hcard)).
      exact Hsn. }
    apply moveSnake_collision with (first := first) (rest := second :: rest).
    + rewrite presses_gameState_arrows; [exact Hgs|].
      constructor; [congruence|]. constructor; [congruence | constructor].
    + exact Hsn'.
    + right. rewrite Hdir, Hsn', Hfirst, advance_back. right. now left.
Qed.

Lemma quick_double_turn_ends_game_witness :
  handleKeyPress ArrowUp after_first_food = after_first_food /\
  exists s', moveSnake [] (presses [ArrowLeft; ArrowUp] after_first_food)
             = Some s' /\ gameState s' = gameOver.
Proof.
  destruct (quick_double_turn_ends_game [] after_first_food
              (mkPosition 15 16) (mkPosition 15 15) []
              ArrowLeft ArrowUp (mkPosition (-1) 0))
    as [Halone [_ Hdies]].
  - reflexivity.
  - reflexivity.
  - reflexivity.
  - reflexivity.
  - reflexivity.
  - reflexivity.
  - reflexivity.
  - split; [exact Halone | exact Hdies].
Defined.

(** ** Buttons and keys *)

(** X14.  While the game is [playing], an on-screen arrow does exactly what
    the arrow key does; in every other state the on-screen arrows are disabled
    and change nothing (the keys, in contrast, still steer a paused game). *)
Theorem arrows_on_screen_act_like_keys (b : Button) (key : Key) (s : State) :
  arrow_key b = Some key ->
  match gameState s with
  | playing => click b s = handleKeyPress key s
  | _ => click b s = s
  end.
Proof.
  intros Hkey. unfold click, handleKeyPress.
  destruct (gameState s) eqn:Hgs;
    destruct b; try discriminate; injection Hkey as <-; try reflexivity;
    match goal with |- context [if ?c then _ else _] => destruct c end;
    try reflexivity; clear Hgs; destruct s; reflexivity.
Qed.

Lemma arrows_on_screen_act_like_keys_witness :
  click UpButton about_to_turn = handleKeyPress ArrowUp about_to_turn.
Proof.
  exact (arrows_on_screen_act_like_keys UpButton ArrowUp about_to_turn
           eq_refl).
Defined.

(** ** The game does not look at the leaderboard *)

Lemma moveSnake_engine rands s1 s2 s1' :
  engine s1 = engine s2 -> moveSnake rands s1 = Some s1' ->
  exists s2', moveSnake rands s2 = Some s2' /\ engine s2' = engine s1'.
Proof.
  unfold engine. intros Heq Hmove.
  injection Heq as Hsn Hfood Hdir Hgs Hsc.
  unfold moveSnake in *. rewrite <- Hgs, <- Hsn, <- Hdir, <- Hfood, <- Hsc.
  destruct (gameState s1) eqn:Hgs1;
    try (injection Hmove as <-; eexists; split; [reflexivity|];
         unfold engine; congruence).
  destruct (snake s1) as [|first rest] eqn:Hsn1.
  { injection Hmove as <-. eexists. split; [reflexivity|].
    unfold engine. congruence. }
  destruct (_ || _ || _ || _).
  { injection Hmove as <-. eexists. split; [reflexivity|].
    unfold engine. cbn. congruence. }
  destruct (existsb _ _).
  { injection Hmove as <-. eexists. split; [reflexivity|].
    unfold engine. cbn. congruence. }
  destruct (_ && _).
  - destruct (generateFood _ _) as [[newFood spare]|]; [|discriminate].
    injection Hmove as <-. eexists. split; [reflexivity|].
    unfold engine. cbn. congruence.
  - injection Hmove as <-. eexists. split; [reflexivity|].
    unfold engine. cbn. congruence.
Qed.

Lemma fireTimeout_engine s : engine (fireTimeout s) = engine s.
Proof.
  unfold fireTimeout, checkForNewHighScore.
  destruct (timeouts s); [reflexivity|]. now destruct (qualifies _ _).
Qed.

Lemma savePlayerHighScore_engine today s :
  engine (savePlayerHighScore today s) = engine s.
Proof. unfold savePlayerHighScore. now destruct (trim _). Qed.

Lemma handle_engine e s1 s2 s1' :
  engine s1 = engine s2 -> handle e s1 = Some s1' ->
  exists s2', handle e s2 = Some s2' /\ engine s2' = engine s1'.
Proof.
  intros Heq Hh. destruct e as [rands|key|b| |text|today|]; cbn [handle] in *.
  - now apply moveSnake_engine with (s1 := s1).
  - injection Hh as <-. eexists. split; [reflexivity|].
    unfold engine in *. injection Heq as Hsn Hfood Hdir Hgs Hsc.
    unfold handleKeyPress, pauseGame.
    rewrite <- ?Hsn, <- ?Hfood, <- ?Hdir, <- ?Hgs, <- ?Hsc.
    destruct (gameState s1) eqn:Hgs1, key; cbn;
      repeat match goal with
             | |- context [if ?c then _ else _] => destruct c
             end;
      cbn; rewrite <- ?Hsn, <- ?Hfood, <- ?Hdir, <- ?Hgs, <- ?Hsc, ?Hgs1;
      reflexivity.
  - injection Hh as <-. eexists. split; [reflexivity|].
    unfold engine in *. injection Heq as Hsn Hfood Hdir Hgs Hsc.
    unfold click, startGame, pauseGame, resetGame.
    rewrite <- ?Hsn, <- ?Hfood, <- ?Hdir, <- ?Hgs, <- ?Hsc.
    destruct b, (gameState s1) eqn:Hgs1; cbn;
      repeat match goal with
             | |- context [if ?c then _ else _] => destruct c
             end;
      cbn; rewrite <- ?Hsn, <- ?Hfood, <- ?Hdir, <- ?Hgs, <- ?Hsc, ?Hgs1;
      reflexivity.
  - injection Hh as <-. eexists. split; [reflexivity|].
    rewrite !fireTimeout_engine. now symmetry.
  - destruct (showNameDialog s1 && _); injection Hh as <-;
      destruct (showNameDialog s2 && _); eexists;
      (split; [reflexivity|]); exact (eq_sym Heq).
  - destruct (showNameDialog s1); injection Hh as <-;
      destruct (showNameDialog s2); eexists;
      (split; [reflexivity|]);
      rewrite ?savePlayerHighScore_engine; exact (eq_sym Heq).
  - injection Hh as <-. eexists. split; [reflexivity|]. exact (eq_sym Heq).
Qed.

(** X15.  The game never looks at the leaderboard, the name dialog, the
    storage or the pending checks: two states that agree on the snake, the
    food, the direction, the game state and the score still agree on them
    after any series of events, and the series runs from the one exactly when
    it runs from the other.  In particular a game after PLAY AGAIN goes like
    the same inputs on a component that was just mounted. *)
Theorem engine_ignores_leaderboard (es : list Event) (s1 s2 s1' : State) :
  engine s1 = engine s2 ->
  run es s1 = Some s1' ->
  exists s2', run es s2 = Some s2' /\ engine s2' = engine s1'.
Proof.
  revert s1 s2. induction es as [|e es IH]; intros s1 s2 Heq Hrun.
  - injection Hrun as <-. exists s2. split; [reflexivity | now symmetry].
  - cbn [run] in *. destruct (handle e s1) as [t1|] eqn:Hh; [|discriminate].
    destruct (handle_engine e s1 s2 t1 Heq Hh) as [t2 [Hh2 Heq2]].
    rewrite Hh2. apply IH with (s1 := t1); [now symmetry | exact Hrun].
Qed.

Lemma engine_ignores_leaderboard_witness :
  exists s2', run [Click StartButton; KeyDown ArrowRight; Tick []]
                  (resetGame just_ended) = Some s2' /\
              engine s2' = engine about_to_turn.
Proof.
  apply (engine_ignores_leaderboard
           [Click StartButton; KeyDown ArrowRight; Tick []]
           fresh (resetGame just_ended) about_to_turn).
  - reflexivity.
  - reflexivity.
Defined.

(** ** Which cell the food loop picks *)

Lemma generateFood_first_free rands body newFood spare :
  generateFood rands body = Some (newFood, spare) ->
  exists n,
    Forall (fun p => In p body) (firstn n (candidates rands)) /\
    nth_error (candidates rands) n = Some newFood /\
    ~ In newFood body /\
    spare = skipn (2 * n + 2) rands.
Proof.
  induction rands as [|rx|rx ry more IH] using draws_ind; try discriminate.
  cbn [generateFood candidates]. destruct (existsb _ body) eqn:Hon.
  - intros H. destruct (IH H) as (n & Hall & Hnth & Hfree & Hspare).
    exists (S n). apply on_body_iff in Hon.
    split; [cbn [firstn]; now constructor|].
    split; [exact Hnth|]. split; [exact Hfree|].
    replace (2 * S n + 2)%nat with (S (S (2 * n + 2))) by lia. exact Hspare.
  - intros [= <- <-]. apply off_body_iff in Hon. exists 0%nat.
    split; [constructor|]. split; [reflexivity|]. split; [exact Hon|].
    reflexivity.
Qed.

Lemma generateFood_from_first_free rands body newFood n :
  Forall (fun p => In p body) (firstn n (candidates rands)) ->
  nth_error (candidates rands) n = Some newFood ->
  ~ In newFood body ->
  generateFood rands body = Some (newFood, skipn (2 * n + 2) rands).
Proof.
  revert n. induction rands as [|rx|rx ry more IH] using draws_ind;
    intros n Hall Hnth Hfree; try (destruct n; discriminate).
  cbn [generateFood]. cbn [candidates] in *. destruct n as [|n].
  - injection Hnth as <-. apply off_body_iff in Hfree. now rewrite Hfree.
  - cbn [firstn nth_error] in *. inversion Hall as [|? ? Hon Hrest]; subst.
    apply on_body_iff in Hon. rewrite Hon.
    replace (2 * S n + 2)%nat with (S (S (2 * n + 2))) by lia.
    cbn [skipn]. now apply IH.
Qed.

(** X16.  [generateFood] returns the first drawn cell that is free of the
    snake, having used two draws for it and for each occupied cell drawn
    before it: it returns a cell exactly when that cell is the first free one
    among the cells drawn. *)
Theorem generateFood_picks_first_free
  (rands : list Z) (body : list Position) (newFood : Position)
  (spare : list Z) :
  generateFood rands body = Some (newFood, spare) <->
  exists n,
    Forall (fun p => In p body) (firstn n (candidates rands)) /\
    nth_error (candidates rands) n = Some newFood /\
    ~ In newFood body /\
    spare = skipn (2 * n + 2) rands.
Proof.
  split.
  - apply generateFood_first_free.
  - intros (n & Hall & Hnth & Hfree & ->).
    now apply generateFood_from_first_free.
Qed.

(** ** One check per game *)

Lemma ticks_one_check draws :
  forall s s',
    gameState s = playing \/ gameState s = gameOver ->
    run (map Tick draws) s = Some s' ->
    (gameState s' = gameState s /\ timeouts s' = timeouts s
     /\ highScores s' = highScores s)
    \/ (gameState s = playing /\ gameState s' = gameOver /\
        timeouts s' = timeouts s ++ [mkTimeout (score s') (highScores s')]).
Proof.
  induction draws as [|rands draws IH]; intros s s' Hgs Hrun.
  - injection Hrun as <-. left. repeat split.
  - cbn [map run handle] in Hrun.
    destruct (moveSnake rands s) as [t|] eqn:Hmove; [|discriminate].
    destruct (moveSnake_cases _ _ _ Hmove)
      as [-> | [-> | (first & rest & Hplay & _ & _ & _ & Hcase)]].
    + now apply IH.
    + destruct Hgs as [Hgs | Hgs].
      * rewrite ticks_while_not_playing in Hrun by discriminate.
        injection Hrun as <-. right. repeat split; assumption.
      * unfold moveSnake in Hmove. rewrite Hgs in Hmove.
        injection Hmove as Heq.
        rewrite ticks_while_not_playing in Hrun by discriminate.
        injection Hrun as <-. left. rewrite <- Heq. repeat split.
    + assert (Hsame : gameState t = gameState s /\ timeouts t = timeouts s
                      /\ highScores t = highScores s).
      { destruct Hcase as [[_ (newFood & spare & _ & ->)] | [_ ->]];
          repeat split. }
      destruct Hsame as (Hg & Ht & Hh).
      destruct (IH t s') as [(Hg' & Ht' & Hh') | (Hp & Hg' & Ht')].
      * rewrite Hg. now left.
      * exact Hrun.
      * left. repeat split; congruence.
      * right. split; [exact Hplay|]. split; [exact Hg'|]. congruence.
Qed.

(** X17.  A game schedules one high-score check and no more: over any
    number of ticks from a state that is [playing], either the game is still
    [playing] and nothing was scheduled, or it is over and exactly one check
    was added, which carries the final score and the leaderboard of the state
    the game ended in; further ticks add nothing. *)
Theorem one_check_per_game (draws : list (list Z)) (s s' : State) :
  gameState s = playing ->
  run (map Tick draws) s = Some s' ->
  (gameState s' = playing /\ timeouts s' = timeouts s)
  \/ (gameState s' = gameOver /\
      timeouts s' = timeouts s ++ [mkTimeout (score s') (highScores s')]).
Proof.
  intros Hgs Hrun.
  destruct (ticks_one_check draws s s' (or_introl Hgs) Hrun)
    as [(Hg & Ht & _) | (_ & Hg & Ht)].
  - left. split; [congruence | exact Ht].
  - right. split; assumption.
Qed.

Lemma one_check_per_game_witness :
  run (map Tick [[]; []; [3; 4]]) facing_bottom_wall
  = Some (endGame facing_bottom_wall) /\
  timeouts (endGame facing_bottom_wall) = [mkTimeout 10 []].
Proof.
  destruct (one_check_per_game [[]; []; [3; 4]] facing_bottom_wall
              (endGame facing_bottom_wall)) as [[Hgs _] | [_ Ht]].
  - reflexivity.
  - reflexivity.
  - discriminate.
  - split; [reflexivity | exact Ht].
Defined.

(** ** Drawing the board *)

Lemma cell_of_index_inj i j : cell_of_index i = cell_of_index j -> i = j.
Proof.
  unfold cell_of_index, GRID_SIZE. intros [= Hx Hy].
  apply Nat2Z.inj.
  rewrite (Z.div_mod (Z.of_nat i) 20), (Z.div_mod (Z.of_nat j) 20) by lia.
  now rewrite Hx, Hy.
Qed.

Lemma cell_of_index_of_cell p :
  in_grid p ->
  cell_of_index (index_of_cell p) = p /\ In (index_of_cell p) board_indices.
Proof.
  unfold in_grid, cell_of_index, index_of_cell, board_indices, GRID_SIZE.
  intros [Hx Hy]. destruct p as [px py]. cbn [x y] in *. split.
  - rewrite Z2Nat.id by lia. f_equal.
    + rewrite Z.add_comm, Z.mod_add by lia. now apply Z.mod_small.
    + rewrite Z.add_comm, Z.div_add by lia. rewrite Z.div_small by lia. lia.
  - apply in_seq. lia.
Qed.

Lemma filter_map_length {A B} (f : A -> B) (P : B -> bool) (l : list A) :
  length (filter (fun a => P (f a)) l) = length (filter P (map f l)).
Proof.
  induction l as [|a l IH]; [reflexivity|]. cbn [map filter].
  destruct (P (f a)); cbn [length]; now rewrite IH.
Qed.

Lemma drawn_cells_NoDup : NoDup (map cell_of_index board_indices).
Proof.
  apply Finite.Injective_map_NoDup.
  - intros i j. apply cell_of_index_inj.
  - apply seq_NoDup.
Qed.

(** A body without repetition that lies in the grid is drawn on as many
    cells as it has segments. *)
Lemma body_drawn_once body :
  NoDup body -> Forall in_grid body ->
  length (filter (fun i => existsb (same_cell (cell_of_index i)) body)
            board_indices)
  = length body.
Proof.
  intros Hnd Hgrid.
  rewrite (filter_map_length cell_of_index
             (fun p => existsb (same_cell p) body)).
  apply Permutation_length. apply NoDup_Permutation.
  - apply NoDup_filter, drawn_cells_NoDup.
  - exact Hnd.
  - intros p. rewrite filter_In, on_body_iff. split; [tauto|].
    intros Hp. split; [|exact Hp].
    rewrite Forall_forall in Hgrid.
    destruct (cell_of_index_of_cell p (Hgrid p Hp)) as [Hcell Hidx].
    rewrite <- Hcell. now apply in_map.
Qed.

Lemma painted_iff_on_snake s i :
  is_painted (paint s i) = existsb (same_cell (cell_of_index i)) (snake s).
Proof.
  unfold paint, isSnake. destruct (existsb _ _); [|reflexivity].
  now destruct (isHead s _).
Qed.

Lemma head_paint_iff s first rest i :
  snake s = first :: rest ->
  is_head_paint (paint s i)
  = existsb (same_cell (cell_of_index i)) [first].
Proof.
  intros Hsn. unfold paint, isSnake, isHead. rewrite Hsn.
  cbn [existsb]. unfold same_cell.
  destruct ((x first =? x (cell_of_index i))
            && (y first =? y (cell_of_index i))); [reflexivity|].
  cbn [orb]. now destruct (existsb _ rest).
Qed.

Lemma shows_food_iff s i :
  showsFood s i = existsb (same_cell (cell_of_index i)) [food s].
Proof.
  unfold showsFood, isFood, same_cell. cbn [existsb].
  now rewrite orb_false_r.
Qed.

(** X18.  The drawing is faithful in every reachable state: the number of
    cells painted as snake is the number of segments, exactly one cell is
    painted as the head, a cell that shows the food is never painted as snake,
    and when the food is in the grid exactly one cell shows it. *)
Theorem board_drawn_faithfully (s : State) :
  reachable s ->
  length (filter (fun i => is_painted (paint s i)) board_indices)
  = length (snake s) /\
  length (filter (fun i => is_head_paint (paint s i)) board_indices) = 1%nat /\
  (forall i, showsFood s i = true -> paint s i = NoPaint) /\
  (in_grid (food s) ->
   length (filter (showsFood s) board_indices) = 1%nat).
Proof.
  intros Hr.
  destruct (reachable_board_ok s Hr) as (Hnd & Hne & Hgrid & Hfood & _).
  split; [|split; [|split]].
  - rewrite (filter_ext _ _ (painted_iff_on_snake s)).
    now apply body_drawn_once.
  - destruct (snake s) as [|first rest] eqn:Hsn; [contradiction|].
    rewrite (filter_ext _ _ (fun i => head_paint_iff s first rest i Hsn)).
    apply (body_drawn_once [first]).
    + constructor; [intros []|constructor].
    + constructor; [|constructor]. now inversion Hgrid.
  - intros i Hi. unfold paint, isSnake.
    destruct (existsb _ (snake s)) eqn:Hon; [|reflexivity].
    apply on_body_iff in Hon. unfold showsFood, isFood in Hi.
    apply eats_iff in Hi. rewrite <- Hi in Hon. contradiction.
  - intros Hin. rewrite (filter_ext _ _ (shows_food_iff s)).
    apply (body_drawn_once [food s]).
    + constructor; [intros []|constructor].
    + constructor; [exact Hin | constructor].
Qed.

Lemma board_drawn_faithfully_witness :
  length (filter (fun i => is_painted (paint after_first_food i))
            board_indices) = 2%nat.
Proof.
  destruct (board_drawn_faithfully after_first_food
              after_first_food_reachable) as [Hcount _].
  exact Hcount.
Defined.

(** ** Showing the scores *)

Lemma scoreText_small :
  forallb (fun k => four_digits_of (Z.of_nat k) (scoreText (Z.of_nat k)))
          (seq 0 (Z.to_nat 10000)) = true.
Proof. vm_compute. reflexivity. Qed.

Lemma scoreText_four_digits z :
  0 <= z < 10000 -> four_digits_of z (scoreText z) = true.
Proof.
  intros Hz. pose proof scoreText_small as Hall.
  rewrite forallb_forall in Hall.
  specialize (Hall (Z.to_nat z)). rewrite Z2Nat.id in Hall by lia.
  apply Hall. apply in_seq. lia.
Qed.

(** X19.  The score is always shown as exactly four decimal digits that
    read as the score: in every reachable state
    [score.toString().padStart(4, '0')] has length 4, consists of digits and
    has the value of the score; so has every score between 0 and 9999. *)
Theorem score_shown_in_four_digits (s : State) (z : Z) :
  reachable s ->
  0 <= z < 10000 ->
  four_digits_of (score s) (scoreText (score s)) = true /\
  four_digits_of z (scoreText z) = true.
Proof.
  intros Hr Hz. split; [|now apply scoreText_four_digits].
  apply scoreText_four_digits.
  destruct (board_ok_valid_final_score s (reachable_board_ok s Hr)) as [H _].
  lia.
Qed.

Lemma score_shown_in_four_digits_witness :
  scoreText (score after_first_food) = str "0010" /\
  four_digits_of 3990 (scoreText 3990) = true.
Proof.
  destruct (score_shown_in_four_digits after_first_food 3990
              after_first_food_reachable) as [_ Hz].
  - lia.
  - split; [reflexivity | exact Hz].
Defined.

(** ** Blank names *)

Lemma trim_start_blank s :
  trim_start s = [] <-> forallb is_white_space s = true.
Proof.
  split.
  - intros H. destruct (trim_start_spec s) as [ws [Heq Hws]].
    rewrite H, app_nil_r in Heq. now rewrite Heq.
  - induction s as [|c s IH]; [reflexivity|]. cbn [forallb trim_start].
    intros H. apply andb_true_iff in H. destruct H as [Hc Hs].
    rewrite Hc. now apply IH.
Qed.

Lemma forallb_rev {A} (P : A -> bool) (l : list A) :
  forallb P (rev l) = forallb P l.
Proof.
  induction l as [|a l IH]; [reflexivity|].
  cbn [rev forallb]. rewrite forallb_app, IH. cbn [forallb].
  rewrite andb_true_r. apply andb_comm.
Qed.

Lemma trim_blank s : trim s = [] <-> forallb is_white_space s = true.
Proof.
  unfold trim. split.
  - intros H. apply (f_equal (@rev N)) in H. rewrite rev_involutive in H.
    cbn [rev] in H. apply trim_start_blank in H. rewrite forallb_rev in H.
    destruct (trim_start s) as [|c r] eqn:Ht; [now apply trim_start_blank|].
    apply trim_start_head in Ht. cbn [forallb] in H. now rewrite Ht in H.
  - intros H. apply trim_start_blank in H. now rewrite H.
Qed.

(** X20.  A name of white space only (the empty name included) is refused
    without a trace: [savePlayerHighScore] then changes nothing, neither the
    leaderboard nor the storage nor the dialog; every other name is accepted,
    which closes the dialog and clears the input. *)
Theorem blank_name_changes_nothing (today : jsstring) (s : State) :
  (forallb is_white_space (playerName s) = true ->
   savePlayerHighScore today s = s) /\
  (forallb is_white_space (playerName s) = false ->
   showNameDialog (savePlayerHighScore today s) = false /\
   playerName (savePlayerHighScore today s) = [] /\
   localStorage (savePlayerHighScore today s)
   = Some (JSON.stringify (highScores (savePlayerHighScore today s)))).
Proof.
  unfold savePlayerHighScore. split; intros Hblank.
  - apply trim_blank in Hblank. now rewrite Hblank.
  - destruct (trim (playerName s)) as [|c name] eqn:Htrim.
    + apply trim_blank in Htrim. congruence.
    + repeat split.
Qed.

Lemma blank_name_changes_nothing_witness :
  savePlayerHighScore (str "3/11/2026") (setPlayerName (str "   ") naming)
  = setPlayerName (str "   ") naming.
Proof.
  apply (blank_name_changes_nothing (str "3/11/2026")
           (setPlayerName (str "   ") naming)).
  reflexivity.
Defined.
